(** * caching-demo: the LRU store, the fetch-through cache and the HRW router

    A shallow embedding of [LRUCache.ts], [Cache.ts] and [hrwRouting.ts].

    - [LRUCache] keeps the source's representation: a [Map<string, Node>]
      (a [gmap] from keys to node addresses) and a doubly linked list of
      [Node] objects between two dummy nodes.  Objects live in a heap, a list
      of nodes addressed by position; [new Node] allocates at the end.
      Dereferencing [null] (the [!] assertions of the source) or a dangling
      address makes an operation return [None].
    - [Cache] is the asynchronous wrapper.  JavaScript runs it on one thread,
      so a call of [get] runs without interruption up to the point where the
      fetcher's promise is awaited, and the rest of the fetch operation runs
      when that promise settles.  These two kinds of atomic steps are the
      events of a transition system.
    - [Hrw] is the router; the MurmurHash3 function of the external library
      is a parameter.

    Numbers: the capacity, the clock and the TTL are integers ([Z]); the
    routing weight is a rational ([Q]) and scores are exact products, so
    what JavaScript's doubles do beyond that (a capacity with a fraction,
    [NaN], a product that overflows to [Infinity]) is outside the model. *)

From Stdlib Require Import ZArith QArith Lia DecimalString.
From stdpp Require Import gmap strings list fin_maps.

Set Warnings "-clear-no-such-hyp".

Local Open Scope Z_scope.

(** ** LRUCache.ts *)

Module LRUCache.

Section Store.

(** The type of cached values ([any] in the source) and the value [""]
    the constructor stores in the two dummy nodes. *)
Context {V : Type} (blank : V).

(** [class Node]: [prev] and [next] are [Node | null], here an address or
    [None]. *)
Record Node := mkNode {
  key : string;
  value : V;
  prev : option nat;
  next : option nat
}.

(** The heap: the nodes allocated so far, addressed by position. *)
Local Abbreviation Heap := (list Node).

(** [class LRUCache], with the heap its nodes live in. *)
Record t := mk {
  cache : gmap string nat;
  capacity : Z;
  head : nat;
  tail : nat;
  heap : Heap
}.

Inductive Error := Err (message : string).

(** Field assignments [n.value = v], [n.prev = p], [n.next = p] on the
    object at address [a]. *)
Definition upd (a : nat) (f : Node → Node) (h : Heap) : option Heap :=
  n ← h !! a; Some (<[a := f n]> h).

Definition with_value (v : V) (n : Node) : Node :=
  mkNode (key n) v (prev n) (next n).
Definition with_prev (p : nat) (n : Node) : Node :=
  mkNode (key n) (value n) (Some p) (next n).
Definition with_next (p : nat) (n : Node) : Node :=
  mkNode (key n) (value n) (prev n) (Some p).

(** Field reads; [None] when the address is dangling or the field [null]. *)
Definition nxt (h : Heap) (a : nat) : option nat := n ← h !! a; next n.
Definition prv (h : Heap) (a : nat) : option nat := n ← h !! a; prev n.
Definition keyof (h : Heap) (a : nat) : option string := key <$> h !! a.
Definition valof (h : Heap) (a : nat) : option V := value <$> h !! a.

(** [constructor(capacity)] *)
Definition new (capacity : Z) : Error + t :=
  if capacity <=? 0 then inl (Err "Capacity must be greater than 0")
  else
    let head := 0%nat in
    let tail := 1%nat in
    inr (mk ∅ capacity head tail
            [ mkNode "" blank None (Some tail);
              mkNode "" blank (Some head) None ]).

(** [removeNode(node)] *)
Definition removeNode (node : nat) (h : Heap) : option Heap :=
  prevNode ← prv h node;
  nextNode ← nxt h node;
  h ← upd prevNode (with_next nextNode) h;
  upd nextNode (with_prev prevNode) h.

(** [addToTail(node)] *)
Definition addToTail (tl : nat) (node : nat) (h : Heap) : option Heap :=
  prevNode ← prv h tl;
  h ← upd prevNode (with_next node) h;
  h ← upd node (with_prev prevNode) h;
  h ← upd node (with_next tl) h;
  upd tl (with_prev node) h.

(** [removeHead()] *)
Definition removeHead (s : t) : option t :=
  nodeToRemove ← nxt (heap s) (head s);
  if decide (nodeToRemove = tail s) then Some s
  else
    h ← removeNode nodeToRemove (heap s);
    k ← keyof h nodeToRemove;
    Some (mk (delete k (cache s)) (capacity s) (head s) (tail s) h).

(** [get(key)]: the new store and the returned value, [None] for
    [undefined]. *)
Definition get (k : string) (s : t) : option (t * option V) :=
  match cache s !! k with
  | None => Some (s, None)
  | Some node =>
      h ← removeNode node (heap s);
      h ← addToTail (tail s) node h;
      v ← valof h node;
      Some (mk (cache s) (capacity s) (head s) (tail s) h, Some v)
  end.

(** [set(key, value)] *)
Definition set (k : string) (v : V) (s : t) : option t :=
  match cache s !! k with
  | Some existingNode =>
      h ← upd existingNode (with_value v) (heap s);
      h ← removeNode existingNode h;
      h ← addToTail (tail s) existingNode h;
      Some (mk (cache s) (capacity s) (head s) (tail s) h)
  | None =>
      let newNode := length (heap s) in
      let h := heap s ++ [mkNode k v None None] in
      let s := mk (cache s) (capacity s) (head s) (tail s) h in
      s ← (if Z.of_nat (size (cache s)) >=? capacity s
           then removeHead s else Some s);
      h ← addToTail (tail s) newNode (heap s);
      Some (mk (<[k := newNode]> (cache s)) (capacity s) (head s) (tail s) h)
  end.

(** *** Reading the list back

    [walk] follows the [next] pointers from the node after [head] up to
    [tail]; [entries] are the keys and values met on the way, from the least
    to the most recently used. *)
Fixpoint walk (fuel : nat) (h : Heap) (stop a : nat) : list nat :=
  match fuel with
  | O => []
  | S fuel =>
      if decide (a = stop) then []
      else a :: match nxt h a with
                | Some b => walk fuel h stop b
                | None => []
                end
  end.

Definition nodes (s : t) : list nat :=
  match nxt (heap s) (head s) with
  | Some a => walk (length (heap s)) (heap s) (tail s) a
  | None => []
  end.

Definition entry (h : Heap) (a : nat) : option (string * V) :=
  n ← h !! a; Some (key n, value n).

Definition entries (s : t) : list (string * V) :=
  omap (entry (heap s)) (nodes s).

Definition keys (s : t) : list string := (entries s).*1.

(** The value a resident key holds, without touching the list. *)
Definition peek (k : string) (s : t) : option V :=
  a ← cache s !! k; valof (heap s) a.

(** The list read the other way: the [prev] pointers from the node before
    [tail] down to [head]. *)
Fixpoint walk_back (fuel : nat) (h : Heap) (stop a : nat) : list nat :=
  match fuel with
  | O => []
  | S fuel =>
      if decide (a = stop) then []
      else a :: match prv h a with
                | Some b => walk_back fuel h stop b
                | None => []
                end
  end.

Definition nodes_back (s : t) : list nat :=
  match prv (heap s) (tail s) with
  | Some a => walk_back (length (heap s)) (heap s) (head s) a
  | None => []
  end.

(** *** Sequences of operations *)

Inductive op := OpGet (k : string) | OpSet (k : string) (v : V).

Definition op_key (o : op) : string :=
  match o with OpGet k => k | OpSet k _ => k end.

Definition step (o : op) (s : t) : option t :=
  match o with
  | OpGet k => fst <$> get k s
  | OpSet k v => set k v s
  end.

Fixpoint run (ops : list op) (s : t) : option t :=
  match ops with
  | [] => Some s
  | o :: ops => s ← step o s; run ops s
  end.

(** The key [removeHead] deletes from the map: the key of the node after
    [head], unless that node is [tail]. *)
Definition victim (s : t) : option string :=
  nodeToRemove ← nxt (heap s) (head s);
  if decide (nodeToRemove = tail s) then None
  else keyof (heap s) nodeToRemove.

(** The key an operation evicts: [set] calls [removeHead] for a key that is
    not in the map when the map has [capacity] entries or more. *)
Definition evicts (o : op) (s : t) : option string :=
  match o with
  | OpGet _ => None
  | OpSet k _ =>
      match cache s !! k with
      | Some _ => None
      | None =>
          if Z.of_nat (size (cache s)) >=? capacity s then victim s else None
      end
  end.


(** The position, counted from 1, of the last operation of [ops] that
    names [k]; 0 when there is none. *)
Fixpoint last_touch (ops : list op) (k : string) : nat :=
  match ops with
  | [] => 0
  | o :: ops =>
      match last_touch ops k with
      | O => if decide (op_key o = k) then 1 else 0
      | S n => S (S n)
      end
  end.

End Store.

Arguments Node : clear implicits.
Arguments t : clear implicits.
Arguments op : clear implicits.

Abbreviation Heap V := (list (Node V)).

End LRUCache.

(** ** The store as a recency list

    The reference the linked structure is compared with: the resident
    entries as a list from the least to the most recently used one.  A [get]
    of a resident key and a [set] move the entry to the end; a [set] of a
    new key into a full store first drops the first entry. *)

Module Recency.

Section Recency.
Context {V : Type}.

Fixpoint assoc (k : string) (l : list (string * V)) : option V :=
  match l with
  | [] => None
  | (k', v) :: l => if decide (k' = k) then Some v else assoc k l
  end.

Definition without (k : string) (l : list (string * V)) : list (string * V) :=
  filter (λ e, e.1 ≠ k) l.

Definition get (k : string) (l : list (string * V))
    : list (string * V) * option V :=
  match assoc k l with
  | Some v => (without k l ++ [(k, v)], Some v)
  | None => (l, None)
  end.

Definition set (capacity : Z) (k : string) (v : V) (l : list (string * V))
    : list (string * V) :=
  match assoc k l with
  | Some _ => without k l ++ [(k, v)]
  | None =>
      (if Z.of_nat (length l) >=? capacity then tl l else l) ++ [(k, v)]
  end.

Definition step (capacity : Z) (o : LRUCache.op V) (l : list (string * V))
    : list (string * V) :=
  match o with
  | LRUCache.OpGet k => (get k l).1
  | LRUCache.OpSet k v => set capacity k v l
  end.

Definition run (capacity : Z) (ops : list (LRUCache.op V))
    (l : list (string * V)) : list (string * V) :=
  foldl (λ l o, step capacity o l) l ops.

Definition evicts (capacity : Z) (o : LRUCache.op V) (l : list (string * V))
    : option string :=
  match o with
  | LRUCache.OpGet _ => None
  | LRUCache.OpSet k _ =>
      match assoc k l with
      | Some _ => None
      | None => if Z.of_nat (length l) >=? capacity then head l.*1 else None
      end
  end.

End Recency.

End Recency.

(** ** hrwRouting.ts *)

Module Hrw.

Inductive Error := Err (message : string).

Section Router.

(** [murmur.x86.hash32] of the external library murmurhash3js-revisited. *)
Variable hash32 : string → Z.

(** [computeScore(key, node)] *)
Definition computeScore (key node : string) : Z :=
  let input := key +:+ ":" +:+ node in
  let hash := hash32 input in
  hash.

(** [computeScore(key, node) * weight] *)
Definition score (key : string) (weight : Q) (node : string) : Q :=
  (inject_Z (computeScore key node) * weight)%Q.

(** The [for] loop of [routeToNode] over [nodes[1..]], on the pair
    [(selectedNode, maxScore)]. *)
Fixpoint scan (key : string) (weight : Q) (rest : list string)
    (selectedNode : string) (maxScore : Q) : string * Q :=
  match rest with
  | [] => (selectedNode, maxScore)
  | node :: rest =>
      let score := score key weight node in
      if Qlt_le_dec maxScore score
      then scan key weight rest node score
      else scan key weight rest selectedNode maxScore
  end.

(** The body of [routeToNode] after its two length tests. *)
Definition general (key : string) (node0 : string) (rest : list string)
    (weight : Q) : string :=
  let selectedNode := node0 in
  let maxScore := score key weight node0 in
  (scan key weight rest selectedNode maxScore).1.

(** [routeToNode(key, nodes, weight)] *)
Definition routeToNode (key : string) (nodes : list string) (weight : Q)
    : Error + string :=
  match nodes with
  | [] => inl (Err "No nodes available for routing")
  | [node0] => inr node0
  | node0 :: rest => inr (general key node0 rest weight)
  end.

(** [node] is in [nodes] at a place where every node before it has a
    lower score and no node after it a higher one. *)
Definition first_max (key : string) (weight : Q) (nodes : list string)
    (node : string) : Prop :=
  ∃ l1 l2, nodes = l1 ++ node :: l2 ∧
    Forall (λ m, (score key weight m < score key weight node)%Q) l1 ∧
    Forall (λ m, (score key weight m <= score key weight node)%Q) l2.

(** A JavaScript number that is an integer, or [NaN]. *)
Inductive num := Num (z : Z) | NaN.

(** [distribution[node]++]: a property that is missing reads as
    [undefined], and [undefined + 1] is [NaN]. *)
Definition incr (distribution : gmap string num) (node : string)
    : gmap string num :=
  <[node := match distribution !! node with
            | Some (Num z) => Num (z + 1)
            | _ => NaN
            end]> distribution.

(** [testRouting(keys, nodes)].  The object [distribution] is a map from
    property names to numbers; this holds for every name but ["__proto__"],
    which an object does not store as a property.  An exception of
    [routeToNode] ends the loop over the keys. *)
Definition testRouting (keys nodes : list string)
    : Error + gmap string num :=
  let distribution := foldl (λ d node, <[node := Num 0]> d) ∅ nodes in
  foldl (λ acc key,
           match acc with
           | inl e => inl e
           | inr distribution =>
               match routeToNode key nodes 1 with
               | inl e => inl e
               | inr selectedNode => inr (incr distribution selectedNode)
               end
           end)
        (inr distribution) keys.

(** The keys that [routeToNode] sends to [node]. *)
Definition selects (key : string) (nodes : list string) (node : string)
    : bool :=
  match routeToNode key nodes 1 with
  | inr selectedNode => bool_decide (selectedNode = node)
  | inl _ => false
  end.

Definition routed_to (keys nodes : list string) (node : string)
    : list string :=
  filter (λ key, selects key nodes node = true) keys.

(** The sum of the counts of a distribution ([NaN] counting as 0). *)
Definition total (distribution : gmap string num) : Z :=
  map_fold (λ _ c acc, match c with Num z => z + acc | NaN => acc end)
           0 distribution.

End Router.

End Hrw.

(** ** Cache.ts

    [fetcher] is, as its type and documentation say, an async function:
    a call returns a promise and the caller goes on; the promise settles
    later, with a value or with an error.  [nowFn] is the clock.  Both are
    the environment of the cache: every event carries the reading of the
    clock at that moment, and the settlement of a fetch carries what the
    fetcher's promise settled with. *)

Module Cache.

Section Cache.

(** Fetched values and the errors a fetch can be rejected with. *)
Context {V E : Type}.

(** [type CacheEntry] *)
Record CacheEntry := mkEntry {
  value : V;
  timestamp : Z
}.

(** The value [""] of the store's dummy nodes, seen at the type the store
    is used at.  It is never read. *)
Variable blank : CacheEntry.

(** A promise made by the async function inside [get]: still waiting for
    the fetcher (the suspended function holds [key]), or settled. *)
Inductive promise :=
  | Pending (key : string)
  | Fulfilled (v : V)
  | Rejected (e : E).

(** [class Cache], the promises made so far (addressed by position), and
    the keys the fetcher was called with, oldest first. *)
Record t := mk {
  lruCache : LRUCache.t CacheEntry;
  maxDuration : Z;
  inFlightRequests : gmap string nat;
  promises : list promise;
  fetcherCalls : list string
}.

(** [constructor(capacity, fetcher, maxDuration, nowFn)] *)
Definition new (capacity : Z) (maxDuration : Z) : LRUCache.Error + t :=
  match LRUCache.new blank capacity with
  | inl e => inl e
  | inr lru => inr (mk lru maxDuration ∅ [] [])
  end.

(** What the promise returned by [get] is resolved with: a value, or
    another promise, whose outcome it takes. *)
Inductive result :=
  | Returned (v : V)
  | Chained (p : nat).

(** [age < this.maxDuration] *)
Definition fresh (now : Z) (maxDuration : Z) (entry : CacheEntry) : bool :=
  let age := now - timestamp entry in
  age <? maxDuration.

(** The second half of [get(key)]: return the in-flight request for [key]
    if there is one; otherwise start the fetch operation, which calls the
    fetcher and waits, and record its promise as in flight. *)
Definition join_or_fetch (key : string) (c : t) : t * result :=
  match inFlightRequests c !! key with
  | Some existingRequest => (c, Chained existingRequest)
  | None =>
      let fetchPromise := length (promises c) in
      (mk (lruCache c) (maxDuration c)
          (<[key := fetchPromise]> (inFlightRequests c))
          (promises c ++ [Pending key])
          (fetcherCalls c ++ [key]),
       Chained fetchPromise)
  end.

(** [get(key)], up to and including the [return]: the part that runs
    before the caller gets control back. *)
Definition get (now : Z) (key : string) (c : t) : option (t * result) :=
  '(lru, entry) ← LRUCache.get key (lruCache c);
  let c := mk lru (maxDuration c) (inFlightRequests c) (promises c)
              (fetcherCalls c) in
  match entry with
  | Some entry =>
      if fresh now (maxDuration c) entry
      then Some (c, Returned (value entry))
      else Some (join_or_fetch key c)
  | None => Some (join_or_fetch key c)
  end.

(** The rest of the async function behind promise [p], run when the
    fetcher's promise settles with [r]: store the value, or let the error
    through; in both cases delete the in-flight request and settle [p]. *)
Definition settle (now : Z) (p : nat) (r : V + E) (c : t) : option t :=
  match promises c !! p with
  | Some (Pending key) =>
      match r with
      | inl value =>
          lru ← LRUCache.set key (mkEntry value now) (lruCache c);
          Some (mk lru (maxDuration c) (delete key (inFlightRequests c))
                   (<[p := Fulfilled value]> (promises c)) (fetcherCalls c))
      | inr e =>
          Some (mk (lruCache c) (maxDuration c)
                   (delete key (inFlightRequests c))
                   (<[p := Rejected e]> (promises c)) (fetcherCalls c))
      end
  | _ => None
  end.

(** *** Executions *)

Inductive event :=
  | EvGet (now : Z) (key : string)
  | EvSettle (now : Z) (p : nat) (r : V + E).

Definition ev_time (ev : event) : Z :=
  match ev with EvGet now _ => now | EvSettle now _ _ => now end.

(** One event; a [get] yields the key and what the call returned. *)
Definition step (ev : event) (c : t) : option (t * list (string * result)) :=
  match ev with
  | EvGet now key => '(c, r) ← get now key c; Some (c, [(key, r)])
  | EvSettle now p r => c ← settle now p r c; Some (c, [])
  end.

Fixpoint run (evs : list event) (c : t)
    : option (t * list (string * result)) :=
  match evs with
  | [] => Some (c, [])
  | ev :: evs =>
      '(c, rs) ← step ev c;
      '(c, rs') ← run evs c;
      Some (c, rs ++ rs')
  end.

(** The key of the fetch an event settles. *)
Definition settles (ev : event) (c : t) : option string :=
  match ev with
  | EvSettle _ p _ =>
      match promises c !! p with
      | Some (Pending key) => Some key
      | _ => None
      end
  | EvGet _ _ => None
  end.

(** [unsettled k evs c]: running [evs] from [c], every settlement is that
    of a pending fetch, and none is that of a fetch for [k]. *)
Fixpoint unsettled (k : string) (evs : list event) (c : t) : Prop :=
  match evs with
  | [] => True
  | ev :: evs =>
      match ev with
      | EvGet _ _ => True
      | EvSettle _ _ _ => ∃ k', settles ev c = Some k' ∧ k' ≠ k
      end ∧
      match step ev c with
      | Some (c', _) => unsettled k evs c'
      | None => True
      end
  end.

(** The promises the calls [get(k)] were chained to, in order. *)
Definition chained_to (k : string) (rs : list (string * result)) : list nat :=
  omap (λ kr, match kr with
              | (k', Chained p) => if decide (k' = k) then Some p else None
              | _ => None
              end) rs.



(** How often the fetcher was called with [k]. *)
Definition calls_for (k : string) (c : t) : nat :=
  length (filter (λ k', k' = k) (fetcherCalls c)).

(** How many calls [get(k)] there are among the events. *)
Fixpoint gets_of (k : string) (evs : list event) : nat :=
  match evs with
  | [] => 0
  | EvGet _ k' :: evs =>
      ((if decide (k' = k) then 1 else 0) + gets_of k evs)%nat
  | EvSettle _ _ _ :: evs => gets_of k evs
  end.

(** The clock does not go backwards: the readings of [evs] are in
    ascending order, none below [T]. *)
Fixpoint monotone (T : Z) (evs : list event) : Prop :=
  match evs with
  | [] => True
  | ev :: evs => T <= ev_time ev ∧ monotone (ev_time ev) evs
  end.

(** The last reading of the clock. *)
Fixpoint last_time (T : Z) (evs : list event) : Z :=
  match evs with
  | [] => T
  | ev :: evs => last_time (ev_time ev) evs
  end.

(** The entry of [k], if there is one, is at least [maxDuration] old at
    time [T]. *)
Definition absent_or_stale (T : Z) (k : string) (c : t) : Prop :=
  ∀ e, LRUCache.peek k (lruCache c) = Some e →
       timestamp e + maxDuration c <= T.

End Cache.

Arguments CacheEntry : clear implicits.
Arguments promise : clear implicits.
Arguments t : clear implicits.
Arguments result : clear implicits.
Arguments event : clear implicits.

End Cache.

(** ** routing.ts and the node list of routingProxy.ts

    Here strings are what JavaScript strings are, sequences of UTF-16 code
    units, since the code reads the code units ([charCodeAt]) and trims
    white space. *)

Module Js.

(** A string literal (of ASCII characters) as code units. *)
Definition units (s : string) : list Z :=
  (λ a, Z.of_nat (Ascii.nat_of_ascii a)) <$> String.list_ascii_of_string s.

(** [ToInt32]: the integer modulo 2^32, as a signed 32-bit number. *)
Definition toInt32 (z : Z) : Z := (z + 2 ^ 31) `mod` 2 ^ 32 - 2 ^ 31.

(** [s.startsWith(prefix)] *)
Fixpoint startsWith (pre s : list Z) : bool :=
  match pre, s with
  | [], _ => true
  | p :: pre, c :: s => bool_decide (p = c) && startsWith pre s
  | _ :: _, [] => false
  end.

(** [s.split(sep)] for a separator of one code unit. *)
Fixpoint split (sep : Z) (s : list Z) : list (list Z) :=
  match s with
  | [] => [[]]
  | c :: s =>
      if decide (c = sep) then [] :: split sep s
      else match split sep s with
           | w :: ws => (c :: w) :: ws
           | [] => [[c]]
           end
  end.

(** White space and line terminators of ECMAScript. *)
Definition is_ws (c : Z) : bool :=
  bool_decide (c ∈ [9; 10; 11; 12; 13; 32; 160; 5760; 8192; 8193; 8194;
                    8195; 8196; 8197; 8198; 8199; 8200; 8201; 8202; 8232;
                    8233; 8239; 8287; 12288; 65279]).

Fixpoint trimStart (s : list Z) : list Z :=
  match s with
  | c :: s' => if is_ws c then trimStart s' else s
  | [] => []
  end.

(** [s.trim()] *)
Definition trim (s : list Z) : list Z :=
  rev (trimStart (rev (trimStart s))).

(** [parts.join(sep)] *)
Fixpoint join (sep : Z) (parts : list (list Z)) : list Z :=
  match parts with
  | [] => []
  | [w] => w
  | w :: ws => w ++ sep :: join sep ws
  end.

End Js.

Module Routing.

Section Routing.

(** [const nodes: string[] = []]: the list of the module, which the file
    leaves empty; the functions are modelled for any list. *)
Variable nodes : list (list Z).

(** [hashFn(input)] *)
Definition hashFn (input : list Z) : Z :=
  foldl (λ hash char,
           let hash := Js.toInt32 (Z.shiftl (Js.toInt32 hash) 5) - hash + char in
           Z.land (Js.toInt32 hash) (Js.toInt32 hash))
        0 input.

(** [`${key}:${node}`]; an [undefined] node prints as ["undefined"]. *)
Definition template (key : list Z) (node : option (list Z)) : list Z :=
  key ++ Js.units ":" ++ default (Js.units "undefined") node.

(** The [for] loop of [routeToNode]. *)
Fixpoint scan (key : list Z) (rest : list (list Z))
    (selectedNode : option (list Z)) (maxScore : Z)
    : option (list Z) * Z :=
  match rest with
  | [] => (selectedNode, maxScore)
  | node :: rest =>
      let score := hashFn (template key (Some node)) in
      if maxScore <? score
      then scan key rest (Some node) score
      else scan key rest selectedNode maxScore
  end.

(** [routeToNode(key)]; [None] is [undefined]. *)
Definition routeToNode (key : list Z) : option (list Z) :=
  let selectedNode := nodes !! 0%nat in
  let maxScore := hashFn (template key selectedNode) in
  (scan key (drop 1 nodes) selectedNode maxScore).1.

(** The hash of Java's [String.hashCode], before it is cut to 32 bits. *)
Definition poly31 (input : list Z) : Z :=
  foldl (λ hash char, 31 * hash + char) 0 input.

End Routing.

End Routing.

Module RoutingProxy.

(** [args.find(arg => arg.startsWith("--nodes="))] *)
Definition nodesArg (args : list (list Z)) : option (list Z) :=
  list_find (λ arg, Js.startsWith (Js.units "--nodes=") arg = true) args
  ≫= λ '(_, arg), Some arg.

(** [nodesArg.split("=")[1].split(",").map(n => n.trim())]; [None] when
    [split("=")[1]] is [undefined], on which [split] throws. *)
Definition parseNodes (nodesArg : list Z) : option (list (list Z)) :=
  value ← Js.split 61 nodesArg !! 1%nat;
  Some (Js.trim <$> Js.split 44 value).

End RoutingProxy.

(** ** proxyServer.ts: what an origin failure becomes *)

Module ProxyServer.

(** What the [catch] blocks can see of a thrown value: an error of axios (with
    the response's status when the origin answered, and the error code), any
    other [Error], or a value that is no [Error]. *)
Inductive thrown :=
  | AxiosError (response : option nat) (code : option string) (message : string)
  | PlainError (message : string)
  | NotError.

(** A number in a template literal. *)
Definition toString (n : nat) : string :=
  DecimalString.NilZero.string_of_uint (Nat.to_uint n).

(** [s.includes(needle)] *)
Fixpoint includes (needle s : string) : bool :=
  String.prefix needle s ||
  match s with
  | EmptyString => false
  | String _ s' => includes needle s'
  end.

(** The [catch] block of the fetcher: the value the fetcher's promise is
    rejected with. *)
Definition fetcher_catch (error : thrown) : thrown :=
  match error with
  | AxiosError (Some status) _ _ =>
      PlainError ("Origin server error: " +:+ toString status)
  | AxiosError None code _ =>
      if decide (code = Some "ECONNREFUSED")
      then PlainError "Origin server is not running"
      else error
  | _ => error
  end.

(** The [catch] block of the handler of [/images/:filename]: the status of
    the response. An error of axios is an [Error]. *)
Definition handler_catch (error : thrown) : nat :=
  match error with
  | AxiosError _ _ message | PlainError message =>
      if includes "404" message then 404%nat
      else if includes "Origin server is not running" message then 503%nat
      else 500%nat
  | NotError => 500%nat
  end.

End ProxyServer.

(** ** Invariants of the store *)

Module StoreInv.
Import LRUCache.

Section StoreInv.
Context {V : Type}.
Implicit Types (h : Heap V) (s : t V) (l : list (string * V)).
Implicit Types (a : nat) (ns : list nat) (ks : list string).

(** The address holds a node. *)
Definition valid h a : Prop := is_Some (h !! a).

(** Chains.  [fwds h xs]: every node of [xs] but the last has the
    following one as its [next]; [bwds h xs]: every node but the first has
    the preceding one as its [prev]. *)
Fixpoint fwds h (xs : list nat) : Prop :=
  match xs with
  | a :: (b :: _) as r => nxt h a = Some b ∧ fwds h r
  | _ => True
  end.

Fixpoint bwds h (xs : list nat) : Prop :=
  match xs with
  | a :: (b :: _) as r => prv h b = Some a ∧ bwds h r
  | _ => True
  end.

(** [Linked h hd tl ns]: the nodes [ns], in this order, are the list
    between the dummy nodes [hd] and [tl]. *)
Record Linked h (hd tl : nat) (ns : list nat) : Prop := {
  linked_nodup : NoDup (hd :: ns ++ [tl]);
  linked_fwds : fwds h (hd :: ns ++ [tl]);
  linked_bwds : bwds h (hd :: ns ++ [tl]);
  linked_valid : ∀ x, x ∈ hd :: ns ++ [tl] → valid h x
}.

(** The representation invariant: the list between the dummy nodes is
    [ns]; its nodes hold the entries [l], in this order; the map sends
    exactly the keys of these nodes to them. *)
Record Rep s ns l : Prop := {
  rep_linked : Linked (heap s) (head s) (tail s) ns;
  rep_entries : Forall2 (λ a e, entry (heap s) a = Some e) ns l;
  rep_index : ∀ k a,
    cache s !! k = Some a ↔ a ∈ ns ∧ keyof (heap s) a = Some k;
  rep_size : size (cache s) = length ns
}.

(** The states the proofs are about. *)
Definition wf s : Prop := ∃ ns l, Rep s ns l.

(** A list of keys in ascending order of [f]. *)
Fixpoint increasing (f : string → nat) ks : Prop :=
  match ks with
  | [] => True
  | k :: ks => Forall (λ k', (f k < f k')%nat) ks ∧ increasing f ks
  end.

(** The stores the constructor and the operations produce. *)
Definition reachable s : Prop :=
  ∃ blank c s0 ops, new blank c = inr s0 ∧ run ops s0 = Some s.

End StoreInv.

End StoreInv.

(** ** Invariants of the cache *)

Module CacheInv.
Import Cache.

Section CacheInv.
Context {V E : Type} (blank : CacheEntry V).
Implicit Types (c : t V E) (k : string) (p : nat).

Local Abbreviation peek k c := (LRUCache.peek k (lruCache c)).

(** The invariant: the store is well formed, and the in-flight table holds
    exactly the pending fetch operations, under their keys. *)
Definition Inv c : Prop :=
  StoreInv.wf (lruCache c) ∧
  ∀ p k, promises c !! p = Some (Pending k) ↔
         inFlightRequests c !! k = Some p.

(** The caches the constructor and the events produce. *)
Definition reachable c : Prop :=
  ∃ capacity maxDuration c0 evs rs,
    new blank capacity maxDuration = inr c0 ∧ run evs c0 = Some (c, rs).

(** The same with a clock that does not go backwards; [T] is its last
    reading. *)
Inductive reachable_at : Z → t V E → Prop :=
  | reach_new capacity maxDuration c T :
      new blank capacity maxDuration = inr c → reachable_at T c
  | reach_step T c ev c' rs :
      reachable_at T c → T <= ev_time ev → step ev c = Some (c', rs) →
      reachable_at (ev_time ev) c'.


(** The cache after the store was read. *)
Definition with_lru (lru : LRUCache.t (CacheEntry V)) c : t V E :=
  mk lru (maxDuration c) (inFlightRequests c) (promises c) (fetcherCalls c).

(** The promise is settled. *)
Definition settled (o : promise V E) : Prop :=
  match o with Pending _ => False | _ => True end.

(** What a promise settles as, from what the fetcher's promise settled
    with. *)
Definition outcome (r : V + E) : promise V E :=
  match r with inl v => Fulfilled v | inr e => Rejected e end.



End CacheInv.

End CacheInv.

(** ** Concrete stores, caches and routes

    The inputs of the examples further down. *)

Module Demo.

(** A store of capacity 2 as the constructor makes it, and the store after
    [set("a", 1)], [set("b", 2)], [get("a")]: it is full, and "b" is the
    least recently used key. *)
Definition store0 : LRUCache.t nat :=
  LRUCache.mk ∅ 2 0 1
    [ LRUCache.mkNode "" 0%nat None (Some 1%nat);
      LRUCache.mkNode "" 0%nat (Some 0%nat) None ].

Definition store_ops : list (LRUCache.op nat) :=
  [ LRUCache.OpSet "a" 1%nat; LRUCache.OpSet "b" 2%nat; LRUCache.OpGet "a" ].

Definition store_after (ops : list (LRUCache.op nat)) (s : LRUCache.t nat)
    : LRUCache.t nat :=
  match LRUCache.run ops s with Some s' => s' | None => s end.

Definition store1 : LRUCache.t nat := store_after store_ops store0.

(** A cache of capacity 2 with a TTL of 5000, as the constructor makes it;
    values are numbers and errors are messages. *)
Definition blank : Cache.CacheEntry nat := Cache.mkEntry 0%nat 0.

Definition cache0 : Cache.t nat string :=
  Cache.mk (LRUCache.mk ∅ 2 0 1
              [ LRUCache.mkNode "" blank None (Some 1%nat);
                LRUCache.mkNode "" blank (Some 0%nat) None ])
           5000 ∅ [] [].

Definition after (evs : list (Cache.event nat string))
    (c : Cache.t nat string) : Cache.t nat string :=
  match Cache.run evs c with Some (c', _) => c' | None => c end.

Definition results (evs : list (Cache.event nat string))
    (c : Cache.t nat string) : list (string * Cache.result nat) :=
  match Cache.run evs c with Some (_, rs) => rs | None => [] end.

(** "k" is fetched at time 0 and the value 7 is stored at time 0. *)
Definition fetched : list (Cache.event nat string) :=
  [ Cache.EvGet 0 "k"; Cache.EvSettle 0 0 (inl 7%nat) ].


(** "a" and then "b" are fetched and stored at time 0. *)
Definition two_keys : list (Cache.event nat string) :=
  [ Cache.EvGet 0 "a"; Cache.EvSettle 0 0 (inl 1%nat);
    Cache.EvGet 0 "b"; Cache.EvSettle 0 1 (inl 2%nat) ].

(** Three calls [get("x")] while a fetch for "y" starts and settles. *)
Definition herd : list (Cache.event nat string) :=
  [ Cache.EvGet 0 "x"; Cache.EvGet 0 "y"; Cache.EvGet 1 "x";
    Cache.EvSettle 2 1 (inl 5%nat); Cache.EvGet 3 "x" ].

(** A stand-in for the hash function: the sum of the character codes. *)
Fixpoint hash (s : string) : Z :=
  match s with
  | EmptyString => 0
  | String a s => Z.of_nat (Ascii.nat_of_ascii a) + hash s
  end.

Definition route_nodes : list string := [ "n1"; "n3"; "n2"; "n3" ].

End Demo.

(** * Verification of the store *)

Module LRUFacts.
Import LRUCache StoreInv.

Section Heap.
Context {V : Type}.
Implicit Types (h : Heap V) (a b x p : nat) (f : Node V → Node V).


Lemma upd_Some a f h h' :
  upd a f h = Some h' → ∃ n, h !! a = Some n ∧ h' = <[a := f n]> h.
Proof.
  unfold upd. destruct (h !! a) as [n|] eqn:E; simpl; [|done].
  intros [= <-]. eauto.
Qed.

Lemma upd_valid a f h : valid h a → ∃ h', upd a f h = Some h'.
Proof. intros [n E]. unfold upd. rewrite E. simpl. eauto. Qed.

Lemma lookup_upd a f h h' x :
  upd a f h = Some h' →
  h' !! x = if decide (x = a) then f <$> h !! x else h !! x.
Proof.
  intros (n & E & ->)%upd_Some. case_decide as D.
  - subst x. rewrite E. simpl. apply list_lookup_insert_eq.
    by eapply lookup_lt_Some.
  - by apply list_lookup_insert_ne.
Qed.

Lemma valid_upd a f h h' x : upd a f h = Some h' → valid h' x ↔ valid h x.
Proof.
  intros U. unfold valid. rewrite (lookup_upd _ _ _ _ x U).
  case_decide; [|done]. by rewrite fmap_is_Some.
Qed.

Ltac upd_field U x :=
  unfold nxt, prv, entry;
  rewrite (lookup_upd _ _ _ _ x U);
  repeat case_decide; subst; try done;
  try (destruct (_ !! _) as [[]|]; done).

Lemma nxt_upd_next a p h h' x :
  upd a (with_next p) h = Some h' →
  nxt h' x = if decide (x = a) then Some p else nxt h x.
Proof.
  intros U. pose proof (upd_Some _ _ _ _ U) as (n & E & _).
  upd_field U x.
Qed.

Lemma prv_upd_next a p h h' x :
  upd a (with_next p) h = Some h' → prv h' x = prv h x.
Proof. intros U. upd_field U x. Qed.

Lemma entry_upd_next a p h h' x :
  upd a (with_next p) h = Some h' → entry h' x = entry h x.
Proof. intros U. upd_field U x. Qed.

Lemma prv_upd_prev a p h h' x :
  upd a (with_prev p) h = Some h' →
  prv h' x = if decide (x = a) then Some p else prv h x.
Proof.
  intros U. pose proof (upd_Some _ _ _ _ U) as (n & E & _).
  upd_field U x.
Qed.

Lemma nxt_upd_prev a p h h' x :
  upd a (with_prev p) h = Some h' → nxt h' x = nxt h x.
Proof. intros U. upd_field U x. Qed.

Lemma entry_upd_prev a p h h' x :
  upd a (with_prev p) h = Some h' → entry h' x = entry h x.
Proof. intros U. upd_field U x. Qed.

Lemma nxt_upd_value a v h h' x :
  upd a (with_value v) h = Some h' → nxt h' x = nxt h x.
Proof. intros U. upd_field U x. Qed.

Lemma prv_upd_value a v h h' x :
  upd a (with_value v) h = Some h' → prv h' x = prv h x.
Proof. intros U. upd_field U x. Qed.

Lemma entry_upd_value a v h h' x :
  upd a (with_value v) h = Some h' →
  entry h' x = if decide (x = a) then (λ e, (e.1, v)) <$> entry h x
               else entry h x.
Proof. intros U. upd_field U x. Qed.

Lemma valid_entry h a : valid h a ↔ is_Some (entry h a).
Proof.
  unfold valid, entry. destruct (h !! a); simpl; split; intros [? ?]; eauto;
    done.
Qed.

Lemma nxt_valid h a b : nxt h a = Some b → valid h a.
Proof. unfold nxt, valid. destruct (h !! a); [eauto|done]. Qed.

Lemma prv_valid h a b : prv h a = Some b → valid h a.
Proof. unfold prv, valid. destruct (h !! a); [eauto|done]. Qed.

Lemma keyof_entry h a : keyof h a = fst <$> entry h a.
Proof. unfold keyof, entry. by destruct (h !! a). Qed.

Lemma valof_entry h a : valof h a = snd <$> entry h a.
Proof. unfold valof, entry. by destruct (h !! a). Qed.

(** What [removeNode] and [addToTail] do to the fields of every node. *)
Lemma removeNode_fields a p n h :
  prv h a = Some p → nxt h a = Some n → valid h p → valid h n →
  ∃ h', removeNode a h = Some h' ∧
    (∀ x, nxt h' x = if decide (x = p) then Some n else nxt h x) ∧
    (∀ x, prv h' x = if decide (x = n) then Some p else prv h x) ∧
    (∀ x, entry h' x = entry h x).
Proof.
  intros Hp Hn Vp Vn. unfold removeNode. rewrite Hp, Hn. simpl.
  destruct (upd_valid p (with_next n) h Vp) as [h1 U1]. rewrite U1. simpl.
  apply (valid_upd _ _ _ _ n U1) in Vn.
  destruct (upd_valid n (with_prev p) h1 Vn) as [h2 U2].
  exists h2. split; [done|]. split_and!; intros x.
  - by rewrite (nxt_upd_prev _ _ _ _ x U2), (nxt_upd_next _ _ _ _ x U1).
  - by rewrite (prv_upd_prev _ _ _ _ x U2), (prv_upd_next _ _ _ _ x U1).
  - by rewrite (entry_upd_prev _ _ _ _ x U2), (entry_upd_next _ _ _ _ x U1).
Qed.

Lemma addToTail_fields tl a p h :
  prv h tl = Some p → valid h p → valid h a →
  ∃ h', addToTail tl a h = Some h' ∧
    (∀ x, nxt h' x = if decide (x = a) then Some tl
                     else if decide (x = p) then Some a else nxt h x) ∧
    (∀ x, prv h' x = if decide (x = tl) then Some a
                     else if decide (x = a) then Some p else prv h x) ∧
    (∀ x, entry h' x = entry h x).
Proof.
  intros Hp Vp Va. pose proof (prv_valid _ _ _ Hp) as Vt.
  unfold addToTail. rewrite Hp. simpl.
  destruct (upd_valid p (with_next a) h Vp) as [h1 U1]. rewrite U1. simpl.
  apply (valid_upd _ _ _ _ a U1) in Va. apply (valid_upd _ _ _ _ tl U1) in Vt.
  destruct (upd_valid a (with_prev p) h1 Va) as [h2 U2]. rewrite U2. simpl.
  apply (valid_upd _ _ _ _ a U2) in Va. apply (valid_upd _ _ _ _ tl U2) in Vt.
  destruct (upd_valid a (with_next tl) h2 Va) as [h3 U3]. rewrite U3. simpl.
  apply (valid_upd _ _ _ _ tl U3) in Vt.
  destruct (upd_valid tl (with_prev a) h3 Vt) as [h4 U4].
  exists h4. split; [done|]. split_and!; intros x.
  - by rewrite (nxt_upd_prev _ _ _ _ x U4), (nxt_upd_next _ _ _ _ x U3),
      (nxt_upd_prev _ _ _ _ x U2), (nxt_upd_next _ _ _ _ x U1).
  - by rewrite (prv_upd_prev _ _ _ _ x U4), (prv_upd_next _ _ _ _ x U3),
      (prv_upd_prev _ _ _ _ x U2), (prv_upd_next _ _ _ _ x U1).
  - by rewrite (entry_upd_prev _ _ _ _ x U4), (entry_upd_next _ _ _ _ x U3),
      (entry_upd_prev _ _ _ _ x U2), (entry_upd_next _ _ _ _ x U1).
Qed.

Lemma fwds_cons h a b r :
  fwds h (a :: b :: r) ↔ nxt h a = Some b ∧ fwds h (b :: r).
Proof. done. Qed.

Lemma bwds_cons h a b r :
  bwds h (a :: b :: r) ↔ prv h b = Some a ∧ bwds h (b :: r).
Proof. done. Qed.

Lemma fwds_app h xs y ys :
  fwds h (xs ++ y :: ys) ↔ fwds h (xs ++ [y]) ∧ fwds h (y :: ys).
Proof.
  induction xs as [|x [|x' xs] IH]; simpl in *; [tauto..|].
  rewrite IH. tauto.
Qed.

Lemma bwds_app h xs y ys :
  bwds h (xs ++ y :: ys) ↔ bwds h (xs ++ [y]) ∧ bwds h (y :: ys).
Proof.
  induction xs as [|x [|x' xs] IH]; simpl in *; [tauto..|].
  rewrite IH. tauto.
Qed.

(** A chain reads the [next] of all its nodes but the last, and the [prev]
    of all its nodes but the first. *)
Lemma fwds_ext h h' xs b :
  (∀ x, x ∈ xs → nxt h' x = nxt h x) →
  fwds h (xs ++ [b]) → fwds h' (xs ++ [b]).
Proof.
  induction xs as [|x [|x' xs] IH]; simpl in *; [done|..].
  - intros E [Hx _]. split; [|done]. rewrite E; [done|set_solver].
  - intros E [H1 H2]. split.
    + rewrite E; [done|set_solver].
    + apply IH; [|done]. intros; apply E; set_solver.
Qed.

Lemma bwds_ext h h' a xs :
  (∀ x, x ∈ xs → prv h' x = prv h x) →
  bwds h (a :: xs) → bwds h' (a :: xs).
Proof.
  revert a. induction xs as [|x xs IH]; intros a; simpl in *; [done|].
  intros E [H1 H2]. split.
  - rewrite E; [done|set_solver].
  - apply IH; [|done]. intros; apply E; set_solver.
Qed.

Lemma fwds_ext_all h h' xs :
  (∀ x, x ∈ xs → nxt h' x = nxt h x) → fwds h xs → fwds h' xs.
Proof.
  induction xs as [|x xs _] using rev_ind; [done|].
  intros E. apply fwds_ext. intros; apply E; set_solver.
Qed.

Lemma bwds_ext_all h h' xs :
  (∀ x, x ∈ xs → prv h' x = prv h x) → bwds h xs → bwds h' xs.
Proof.
  destruct xs as [|x xs]; [done|].
  intros E. apply bwds_ext. intros; apply E; set_solver.
Qed.

Lemma snoc_view {A} (y : A) (l : list A) : ∃ l' z, y :: l = l' ++ [z].
Proof.
  revert y. induction l as [|y' l IH]; intros y.
  - by exists [], y.
  - destruct (IH y') as (l' & z & E). exists (y :: l'), z. by rewrite E.
Qed.

Lemma cons_view {A} (l : list A) (z : A) : ∃ y l', l ++ [z] = y :: l'.
Proof. destruct l as [|y l]; simpl; eauto. Qed.

(** Unlinking a node of the list. *)
Lemma removeNode_linked h hd tl l1 a l2 :
  Linked h hd tl (l1 ++ a :: l2) →
  ∃ h', removeNode a h = Some h' ∧ Linked h' hd tl (l1 ++ l2) ∧
        (∀ x, entry h' x = entry h x).
Proof.
  intros [ND F B Va].
  destruct (snoc_view hd l1) as (L & p & EL).
  destruct (cons_view l2 tl) as (n & R & ER).
  assert (hd :: (l1 ++ a :: l2) ++ [tl] = L ++ p :: a :: n :: R) as E.
  { rewrite <- app_assoc. simpl. rewrite ER, app_comm_cons, EL.
    by rewrite <- app_assoc. }
  assert (hd :: (l1 ++ l2) ++ [tl] = L ++ p :: n :: R) as E'.
  { rewrite <- app_assoc, ER, app_comm_cons, EL. by rewrite <- app_assoc. }
  rewrite E in ND, F, B, Va. clear E EL ER.
  apply fwds_app in F as [F1 (Fp & Fa & F2)].
  apply bwds_app in B as [B1 (Bp & Bn & B2)].
  apply NoDup_app in ND as (ND1 & ND2 & ND3).
  apply NoDup_cons in ND3 as [ND3 ND4]. apply NoDup_cons in ND4 as [ND4 ND5].
  apply NoDup_cons in ND5 as [ND5 ND6].
  destruct (removeNode_fields a p n h) as (h' & Rm & Nx & Pv & En);
    [done|done|apply Va; set_solver|apply Va; set_solver|].
  exists h'. split; [done|]. split; [|done]. split; rewrite E'.
  - apply NoDup_app. split_and!; [done|set_solver|].
    apply NoDup_cons. split; [set_solver|]. by apply NoDup_cons.
  - apply fwds_app. split.
    + eapply fwds_ext; [|done]. intros x Hx. rewrite Nx.
      case_decide; [|done]. set_solver.
    + apply fwds_cons. split; [rewrite Nx; by case_decide|].
      eapply fwds_ext_all; [|done]. intros x Hx. rewrite Nx.
      case_decide; [|done]. set_solver.
  - apply bwds_app. split.
    + eapply bwds_ext_all; [|done]. intros x Hx. rewrite Pv.
      case_decide; [|done]. subst. apply elem_of_app in Hx as [Hx|Hx].
      * apply ND2 in Hx. set_solver.
      * set_solver.
    + apply bwds_cons. split; [rewrite Pv; by case_decide|].
      eapply bwds_ext; [|done]. intros x Hx. rewrite Pv.
      case_decide; [|done]. set_solver.
  - intros x Hx. apply valid_entry. rewrite En. apply valid_entry, Va.
    set_solver.
Qed.

(** Linking a node that is not in the list before [tl]. *)
Lemma addToTail_linked h hd tl ns a :
  Linked h hd tl ns → a ∉ hd :: ns ++ [tl] → valid h a →
  ∃ h', addToTail tl a h = Some h' ∧ Linked h' hd tl (ns ++ [a]) ∧
        (∀ x, entry h' x = entry h x).
Proof.
  intros [ND F B Va] Hnot Vn.
  destruct (snoc_view hd ns) as (L & p & EL).
  assert (hd :: ns ++ [tl] = L ++ [p; tl]) as E.
  { rewrite app_comm_cons, EL. by rewrite <- app_assoc. }
  assert (hd :: (ns ++ [a]) ++ [tl] = L ++ [p; a; tl]) as E'.
  { rewrite <- app_assoc, app_comm_cons, EL. by rewrite <- app_assoc. }
  rewrite E in ND, F, B, Va, Hnot. clear E EL.
  apply fwds_app in F as [F1 (Fp & _)].
  apply bwds_app in B as [B1 (Bt & _)].
  apply NoDup_app in ND as (ND1 & ND2 & ND3).
  apply NoDup_cons in ND3 as [ND3 _].
  destruct (addToTail_fields tl a p h) as (h' & Ad & Nx & Pv & En);
    [done|apply Va; set_solver|done|].
  exists h'. split; [done|]. split; [|done]. split; rewrite E'.
  - apply NoDup_app. split_and!; [done|set_solver|].
    apply NoDup_cons. split; [set_solver|].
    apply NoDup_cons. split; [set_solver|]. apply NoDup_singleton.
  - apply fwds_app. split.
    + eapply fwds_ext; [|done]. intros x Hx. rewrite Nx.
      repeat case_decide; try done; set_solver.
    + simpl. rewrite !Nx. repeat case_decide; try done; set_solver.
  - apply bwds_app. split.
    + eapply bwds_ext_all; [|done]. intros x Hx. rewrite Pv.
      repeat case_decide; try done; subst.
      * apply elem_of_app in Hx as [Hx|Hx]; [apply ND2 in Hx|]; set_solver.
      * set_solver.
    + simpl. rewrite !Pv. repeat case_decide; try done; set_solver.
  - intros x Hx. apply valid_entry. rewrite En. apply valid_entry.
    assert (x = a ∨ x ∈ L ++ [p; tl]) as [->|Hx'] by set_solver.
    + done.
    + by apply Va.
Qed.

Lemma Linked_ext h h' hd tl ns :
  (∀ x, x ∈ hd :: ns ++ [tl] →
        nxt h' x = nxt h x ∧ prv h' x = prv h x ∧ (valid h x → valid h' x)) →
  Linked h hd tl ns → Linked h' hd tl ns.
Proof.
  intros E [ND F B Va]. split; [done|..].
  - eapply fwds_ext_all; [|done]. intros x Hx. by apply E.
  - eapply bwds_ext_all; [|done]. intros x Hx. by apply E.
  - intros x Hx. apply E; [done|]. by apply Va.
Qed.

(** The walk from the node after [hd] finds the nodes of the list. *)
Lemma walk_fwds h tl fuel ns b r :
  fwds h (ns ++ [tl]) → NoDup (ns ++ [tl]) → (length ns ≤ fuel)%nat →
  ns ++ [tl] = b :: r → walk fuel h tl b = ns.
Proof.
  revert fuel b r. induction ns as [|c ns IH]; intros fuel b r F ND Hf E.
  - simpl in E. injection E as <- <-.
    destruct fuel; simpl; [done|]. by rewrite decide_True.
  - simpl in E. injection E as <- <-.
    destruct fuel as [|fuel]; simpl in Hf; [lia|]. simpl.
    simpl in ND. apply NoDup_cons in ND as [Hc ND].
    rewrite decide_False by set_solver.
    destruct (cons_view ns tl) as (b' & r' & E').
    simpl in F. rewrite E' in F. apply fwds_cons in F as [-> F].
    f_equal. eapply IH; [by rewrite E'|done|lia|done].
Qed.

Lemma NoDup_bounded (xs : list nat) (n : nat) :
  NoDup xs → (∀ x, x ∈ xs → (x < n)%nat) → (length xs ≤ n)%nat.
Proof.
  intros ND Hb. rewrite <- (length_seq n 0).
  apply submseteq_length, NoDup_submseteq; [done|].
  intros x Hx. apply elem_of_seq. specialize (Hb x Hx). lia.
Qed.

Lemma walk_Linked h hd tl ns :
  Linked h hd tl ns →
  match nxt h hd with
  | Some a => walk (length h) h tl a
  | None => []
  end = ns.
Proof.
  intros [ND F B Va].
  destruct (cons_view ns tl) as (b & r & E).
  pose proof F as F'. rewrite E in F'. apply fwds_cons in F' as [-> _].
  apply NoDup_cons in ND as [Hh ND].
  apply (walk_fwds h tl (length h) ns b r); [|done| |done].
  - rewrite E in F |- *. by apply fwds_cons in F as [_ F].
  - assert (length (hd :: ns ++ [tl]) ≤ length h)%nat as Hl.
    { apply NoDup_bounded; [by apply NoDup_cons|].
      intros x Hx. destruct (Va x Hx) as [? Hn]. by eapply lookup_lt_Some. }
    simpl in Hl. rewrite length_app in Hl. lia.
Qed.

(** [removeNode] followed by [addToTail]: the node moves to the end. *)
Lemma move_to_tail h hd tl l1 a l2 :
  Linked h hd tl (l1 ++ a :: l2) →
  ∃ h1 h2, removeNode a h = Some h1 ∧ addToTail tl a h1 = Some h2 ∧
           Linked h2 hd tl ((l1 ++ l2) ++ [a]) ∧
           (∀ x, entry h2 x = entry h x).
Proof.
  intros L.
  destruct (removeNode_linked _ _ _ _ _ _ L) as (h1 & R1 & L1 & E1).
  destruct (addToTail_linked h1 hd tl (l1 ++ l2) a L1) as (h2 & R2 & L2 & E2).
  - destruct L as [ND _ _ _]. apply NoDup_cons in ND as [Hh ND].
    rewrite <- app_assoc in ND. apply NoDup_app in ND as (N1 & N2 & N3).
    simpl in N3. apply NoDup_cons in N3 as [N3 _].
    intros Hx. rewrite <- app_assoc in Hx.
    apply elem_of_cons in Hx as [->|Hx]; [set_solver|].
    apply elem_of_app in Hx as [Hx|Hx]; [apply N2 in Hx; set_solver|done].
  - apply valid_entry. rewrite E1. apply valid_entry.
    apply (linked_valid _ _ _ _ L). set_solver.
  - exists h1, h2. split_and!; try done. intros x. by rewrite E2, E1.
Qed.

(** Allocation of a node leaves the nodes there are as they were. *)
Lemma alloc_fields h (n : Node V) x :
  valid h x →
  nxt (h ++ [n]) x = nxt h x ∧ prv (h ++ [n]) x = prv h x ∧
  entry (h ++ [n]) x = entry h x ∧ valid (h ++ [n]) x.
Proof.
  intros [m Hm]. unfold nxt, prv, entry, valid.
  rewrite lookup_app_l by (by eapply lookup_lt_Some). rewrite Hm. eauto.
Qed.

Lemma alloc_entry h (n : Node V) :
  entry (h ++ [n]) (length h) = Some (key n, value n).
Proof.
  unfold entry. rewrite lookup_app_r by lia.
  by replace (length h - length h)%nat with 0%nat by lia.
Qed.

End Heap.

(** ** The representation invariant *)

Section Rep.
Context {V : Type}.
Implicit Types (s : t V) (l : list (string * V)) (ns : list nat).
Implicit Types (a b : nat) (k : string).

Lemma Rep_nodes s ns l : Rep s ns l → nodes s = ns.
Proof. intros [L _ _ _]. by apply walk_Linked. Qed.

Lemma omap_entries (h : Heap V) ns l :
  Forall2 (λ a e, entry h a = Some e) ns l → omap (entry h) ns = l.
Proof.
  induction 1 as [|a e ns l E F IH]; [done|]. simpl.
  rewrite E. f_equal. exact IH.
Qed.

Lemma Rep_entries s ns l : Rep s ns l → entries s = l.
Proof.
  intros R. unfold entries. rewrite (Rep_nodes _ _ _ R).
  apply omap_entries, R.
Qed.

Lemma Rep_size s ns l : Rep s ns l → size (cache s) = length l.
Proof.
  intros [_ F _ Sz]. rewrite Sz. by eapply Forall2_length.
Qed.

Lemma entries_key_node (h : Heap V) ns l k :
  Forall2 (λ a e, entry h a = Some e) ns l → k ∈ l.*1 →
  ∃ a, a ∈ ns ∧ keyof h a = Some k.
Proof.
  induction 1 as [|a e ns l E F IH]; simpl; [set_solver|].
  intros [->|Hk]%elem_of_cons.
  - exists a. split; [set_solver|]. by rewrite keyof_entry, E.
  - destruct (IH Hk) as (b & ? & ?). exists b. set_solver.
Qed.

Lemma assoc_None l k : k ∉ l.*1 → Recency.assoc k l = None.
Proof.
  induction l as [|[k' v] l IH]; simpl; [done|]. intros Hk.
  rewrite decide_False by set_solver. apply IH. set_solver.
Qed.

Lemma without_id l k : k ∉ l.*1 → Recency.without k l = l.
Proof.
  unfold Recency.without.
  induction l as [|[k' v] l IH]; simpl; [done|]. intros Hk.
  rewrite filter_cons_True by (simpl; set_solver). f_equal. apply IH.
  set_solver.
Qed.

Lemma assoc_split (e1 e2 : list (string * V)) k v :
  k ∉ e1.*1 → Recency.assoc k (e1 ++ (k, v) :: e2) = Some v.
Proof.
  induction e1 as [|[k' v'] e1 IH]; simpl; intros Hk.
  - by rewrite decide_True.
  - rewrite decide_False by set_solver. apply IH. set_solver.
Qed.

Lemma without_split (e1 e2 : list (string * V)) k v :
  k ∉ e1.*1 → k ∉ e2.*1 →
  Recency.without k (e1 ++ (k, v) :: e2) = e1 ++ e2.
Proof.
  intros H1 H2. unfold Recency.without.
  rewrite filter_app, filter_cons_False by (simpl; tauto).
  f_equal; by apply without_id.
Qed.

(** A resident key: where its node and its entry are. *)
Lemma Rep_resident s ns l k a :
  Rep s ns l → cache s !! k = Some a →
  ∃ ns1 ns2 e1 e2 v,
    ns = ns1 ++ a :: ns2 ∧ l = e1 ++ (k, v) :: e2 ∧
    Forall2 (λ a e, entry (heap s) a = Some e) ns1 e1 ∧
    Forall2 (λ a e, entry (heap s) a = Some e) ns2 e2 ∧
    entry (heap s) a = Some (k, v) ∧ (k ∉ e1.*1) ∧ (k ∉ e2.*1).
Proof.
  intros [L F I Sz] Hk. pose proof Hk as [Ha Ka]%I.
  apply list_elem_of_split in Ha as (l1 & l2 & ->).
  apply Forall2_app_inv_l in F as (e1 & e2' & F1 & F2 & ->).
  apply Forall2_cons_inv_l in F2 as ([k' v] & e2 & Ea & F2 & ->).
  rewrite keyof_entry, Ea in Ka. simpl in Ka. injection Ka as ->.
  exists l1, l2, e1, e2, v. split_and!; try done.
  - intros (b & Hb & Kb)%(entries_key_node _ _ _ _ F1).
    assert (cache s !! k = Some b) as Hk' by (apply I; set_solver).
    assert (b = a) as -> by congruence.
    destruct L as [ND _ _ _]. apply NoDup_cons in ND as [_ ND].
    rewrite <- app_assoc in ND. apply NoDup_app in ND as (_ & ND & _).
    apply ND in Hb. set_solver.
  - intros (b & Hb & Kb)%(entries_key_node _ _ _ _ F2).
    assert (cache s !! k = Some b) as Hk' by (apply I; set_solver).
    assert (b = a) as -> by congruence.
    destruct L as [ND _ _ _]. apply NoDup_cons in ND as [_ ND].
    rewrite <- app_assoc in ND. apply NoDup_app in ND as (_ & _ & ND).
    simpl in ND. apply NoDup_cons in ND as [ND _]. set_solver.
Qed.

Lemma Rep_absent s ns l k :
  Rep s ns l → cache s !! k = None → k ∉ l.*1.
Proof.
  intros [L F I Sz] Hk (b & Hb & Kb)%(entries_key_node _ _ _ _ F).
  assert (cache s !! k = Some b) as Hk' by (by apply I). congruence.
Qed.

Lemma entries_ext (h h' : Heap V) ns l :
  (∀ x, x ∈ ns → entry h' x = entry h x) →
  Forall2 (λ a e, entry h a = Some e) ns l →
  Forall2 (λ a e, entry h' a = Some e) ns l.
Proof.
  intros E F. induction F as [|a e ns l Ha F IH]; constructor.
  - rewrite E; [done|set_solver].
  - apply IH. intros; apply E; set_solver.
Qed.

(** [get] refines [Recency.get]. *)
Lemma get_Rep s ns l k :
  Rep s ns l →
  ∃ s' ns', get k s = Some (s', (Recency.get k l).2) ∧
            Rep s' ns' (Recency.get k l).1 ∧
            cache s' = cache s ∧ capacity s' = capacity s.
Proof.
  intros R. unfold get, Recency.get.
  destruct (cache s !! k) as [a|] eqn:Hk.
  - destruct (Rep_resident _ _ _ _ _ R Hk)
      as (l1 & l2 & e1 & e2 & v & -> & -> & F1 & F2 & Ea & N1 & N2).
    rewrite assoc_split, without_split by done. simpl.
    destruct R as [L F I Sz].
    destruct (move_to_tail _ _ _ _ _ _ L) as (h1 & h2 & -> & R2 & L2 & E2).
    simpl. rewrite R2. simpl.
    rewrite valof_entry, E2, Ea. simpl.
    eexists _, ((l1 ++ l2) ++ [a]). split; [done|]. split; [|done].
    split; simpl.
    + done.
    + apply (entries_ext (heap s)); [by intros|].
      apply Forall2_app; [by apply Forall2_app|].
      by constructor.
    + intros k' b. rewrite I, !keyof_entry, E2. set_solver.
    + rewrite Sz, !length_app. simpl. lia.
  - rewrite assoc_None by (by eapply Rep_absent). simpl.
    by exists s, ns.
Qed.

(** [removeHead] drops the first entry, if there is one. *)
Lemma removeHead_Rep s ns l :
  Rep s ns l →
  ∃ s', removeHead s = Some s' ∧ Rep s' (tl ns) (tl l) ∧
        capacity s' = capacity s ∧ head s' = head s ∧ tail s' = tail s ∧
        (∀ x, entry (heap s') x = entry (heap s) x) ∧
        cache s' = match l with
                   | [] => cache s
                   | (k, _) :: _ => delete k (cache s)
                   end.
Proof.
  intros R. pose proof R as [L F I Sz]. unfold removeHead.
  destruct F as [|a [k v] ns l Ea F].
  - destruct L as [ND Fw _ _]. simpl in Fw. destruct Fw as [-> _]. simpl.
    rewrite decide_True by done. exists s. by split_and!.
  - pose proof L as [ND Fw _ _]. simpl in Fw. destruct Fw as [-> _]. simpl.
    rewrite decide_False.
    2:{ intros ->. apply NoDup_cons in ND as [_ ND]. simpl in ND.
        apply NoDup_cons in ND as [ND _]. set_solver. }
    destruct (removeNode_linked _ _ _ [] a ns L) as (h1 & -> & L1 & E1).
    simpl. rewrite keyof_entry, E1, Ea. simpl.
    eexists. split; [done|]. split_and!; try done. simpl in L1.
    assert (a ∉ ns) as Ha.
    { apply NoDup_cons in ND as [_ ND]. simpl in ND.
      apply NoDup_cons in ND as [ND _]. set_solver. }
    assert (cache s !! k = Some a) as Hk.
    { apply I. split; [set_solver|]. by rewrite keyof_entry, Ea. }
    split; simpl.
    + done.
    + by apply (entries_ext (heap s)).
    + intros k' b. rewrite keyof_entry, E1, <- keyof_entry. split.
      * intros [Hne Hb]%lookup_delete_Some. apply I in Hb as [Hb Kb].
        split; [|done]. apply elem_of_cons in Hb as [->|]; [|done].
        rewrite keyof_entry, Ea in Kb. simpl in Kb. congruence.
      * intros [Hb Kb]. apply lookup_delete_Some. split.
        -- intros <-. assert (cache s !! k = Some b) as Hk'.
           { apply I. set_solver. }
           congruence.
        -- apply I. set_solver.
    + rewrite map_size_delete_Some by eauto. rewrite Sz. done.
Qed.

(** Linking a fresh node for a key that is not resident. *)
Lemma addToTail_new_Rep s ns l k v a :
  Rep s ns l → cache s !! k = None →
  a ∉ head s :: ns ++ [tail s] → entry (heap s) a = Some (k, v) →
  ∃ h', addToTail (tail s) a (heap s) = Some h' ∧
        Rep (mk (<[k := a]> (cache s)) (capacity s) (head s) (tail s) h')
            (ns ++ [a]) (l ++ [(k, v)]).
Proof.
  intros [L F I Sz] Hk Ha Ea.
  destruct (addToTail_linked _ _ _ _ a L Ha) as (h' & -> & L' & E').
  { apply valid_entry. by rewrite Ea. }
  exists h'. split; [done|]. split; simpl.
  - done.
  - apply Forall2_app.
    + by apply (entries_ext (heap s)).
    + constructor; [|done]. by rewrite E'.
  - intros k' b. rewrite keyof_entry, E', <- keyof_entry.
    rewrite lookup_insert. case_decide as D.
    + subst k'. split.
      * intros [= <-]. split; [set_solver|]. by rewrite keyof_entry, Ea.
      * intros [Hb Kb]. f_equal. apply elem_of_app in Hb as [Hb|Hb].
        -- assert (cache s !! k = Some b) as Hk' by (by apply I).
           congruence.
        -- set_solver.
    + rewrite I. split.
      * intros [? ?]. split; [set_solver|done].
      * intros [Hb Kb]. split; [|done].
        apply elem_of_app in Hb as [Hb|Hb]; [done|].
        assert (b = a) as -> by set_solver.
        rewrite keyof_entry, Ea in Kb. simpl in Kb. congruence.
  - rewrite map_size_insert_None by done. rewrite Sz, length_app. simpl. lia.
Qed.

Lemma alloc_Rep s ns l (n : Node V) :
  Rep s ns l →
  Rep (mk (cache s) (capacity s) (head s) (tail s) (heap s ++ [n])) ns l.
Proof.
  intros [L F I Sz]. split; simpl.
  - eapply Linked_ext; [|done]. intros x Hx.
    destruct (alloc_fields (heap s) n x) as (? & ? & ? & ?); [|done].
    by apply (linked_valid _ _ _ _ L).
  - apply (entries_ext (heap s)); [|done]. intros x Hx.
    apply alloc_fields, (linked_valid _ _ _ _ L). set_solver.
  - intros k a. rewrite I. split; intros [Ha Ka]; (split; [done|]).
    + rewrite keyof_entry in Ka |- *.
      destruct (alloc_fields (heap s) n a) as (_ & _ & -> & _); [|done].
      apply (linked_valid _ _ _ _ L). set_solver.
    + rewrite keyof_entry in Ka |- *.
      destruct (alloc_fields (heap s) n a) as (_ & _ & <- & _); [|done].
      apply (linked_valid _ _ _ _ L). set_solver.
  - done.
Qed.

(** Every node of the list is an allocated one. *)
Lemma Rep_bound s ns l x :
  Rep s ns l → x ∈ head s :: ns ++ [tail s] → (x < length (heap s))%nat.
Proof.
  intros [L _ _ _] Hx. destruct (linked_valid _ _ _ _ L x Hx) as [n Hn].
  by eapply lookup_lt_Some.
Qed.

Lemma tl_elem_of {A} (x : A) (xs : list A) : x ∈ tl xs → x ∈ xs.
Proof. destruct xs; simpl; set_solver. Qed.

(** [set] refines [Recency.set]. *)
Lemma set_Rep s ns l k v :
  Rep s ns l →
  ∃ s' ns', set k v s = Some s' ∧
            Rep s' ns' (Recency.set (capacity s) k v l) ∧
            capacity s' = capacity s.
Proof.
  intros R. unfold set, Recency.set.
  destruct (cache s !! k) as [a|] eqn:Hk.
  - destruct (Rep_resident _ _ _ _ _ R Hk)
      as (l1 & l2 & e1 & e2 & v0 & -> & -> & F1 & F2 & Ea & N1 & N2).
    rewrite assoc_split, without_split by done.
    destruct R as [L F I Sz].
    destruct (upd_valid a (with_value v) (heap s)) as [h0 U].
    { apply (linked_valid _ _ _ _ L). set_solver. }
    rewrite U. simpl.
    assert (Linked h0 (head s) (tail s) (l1 ++ a :: l2)) as L0.
    { eapply Linked_ext; [|done]. intros x Hx.
      rewrite (nxt_upd_value _ _ _ _ x U), (prv_upd_value _ _ _ _ x U).
      split_and!; try done. by apply (valid_upd _ _ _ _ x U). }
    destruct (move_to_tail _ _ _ _ _ _ L0) as (h1 & h2 & -> & R2 & L2 & E2).
    simpl. rewrite R2. simpl. eexists _, ((l1 ++ l2) ++ [a]). split; [done|]. split; [|done].
    assert ((a ∉ l1) ∧ (a ∉ l2)) as [A1 A2].
    { destruct L as [ND _ _ _]. apply NoDup_cons in ND as [_ ND].
      rewrite <- app_assoc in ND. apply NoDup_app in ND as (_ & N & N').
      simpl in N'. apply NoDup_cons in N' as [N' _]. split.
      - intros Hx. apply N in Hx. set_solver.
      - set_solver. }
    split; simpl.
    + done.
    + apply Forall2_app; [apply Forall2_app|].
      * apply (entries_ext (heap s)); [|done]. intros x Hx.
        rewrite E2, (entry_upd_value _ _ _ _ x U).
        case_decide; [|done]. by subst.
      * apply (entries_ext (heap s)); [|done]. intros x Hx.
        rewrite E2, (entry_upd_value _ _ _ _ x U).
        case_decide; [|done]. by subst.
      * constructor; [|done].
        rewrite E2, (entry_upd_value _ _ _ _ a U), decide_True by done.
        by rewrite Ea.
    + intros k' b. rewrite I, !keyof_entry, E2.
      rewrite (entry_upd_value _ _ _ _ b U).
      assert (fst <$> (if decide (b = a)
                       then (λ e : string * V, (e.1, v)) <$> entry (heap s) b
                       else entry (heap s) b) = fst <$> entry (heap s) b)
        as ->.
      { case_decide; [|done]. by destruct (entry (heap s) b). }
      set_solver.
    + rewrite Sz, !length_app. simpl. lia.
  - rewrite assoc_None by (by eapply Rep_absent).
    pose proof (alloc_Rep _ _ _ (mkNode k v None None) R) as RA.
    pose proof (alloc_entry (heap s) (mkNode k v None None)) as EA.
    simpl in EA. cbn zeta. simpl. rewrite (Rep_size _ _ _ R).
    set (sA := mk (cache s) (capacity s) (head s) (tail s)
                  (heap s ++ [mkNode k v None None])) in *.
    destruct (Z.of_nat (length l) >=? capacity s).
    + destruct (removeHead_Rep _ _ _ RA)
        as (s2 & -> & R2 & C2 & H2 & T2 & E2 & M2).
      simpl.
      destruct (addToTail_new_Rep s2 (tl ns) (tl l) k v (length (heap s)))
        as (h' & -> & R'); try done.
      * rewrite M2. destruct l as [|[k0 v0] l]; [done|].
        apply lookup_delete_None. by right.
      * intros Hx. rewrite H2, T2 in Hx.
        assert (length (heap s) ∈ head s :: ns ++ [tail s]) as Hx'.
        { apply elem_of_cons in Hx as [Hx|Hx]; [set_solver|].
          apply elem_of_app in Hx as [Hx|Hx]; [|set_solver].
          apply tl_elem_of in Hx. set_solver. }
        apply (Rep_bound _ _ _ _ R) in Hx'. lia.
      * by rewrite E2.
      * simpl. eexists _, _. split; [done|]. split; [done|]. by rewrite C2.
    + destruct (addToTail_new_Rep sA ns l k v (length (heap s)))
        as (h' & A & R'); try done.
      * intros Hx. apply (Rep_bound _ _ _ _ R) in Hx. lia.
      * simpl in A |- *. rewrite A. simpl. eexists _, _. by split_and!.
Qed.

(** The map and the list hold the same keys and values. *)
Lemma Rep_peek s ns l k : Rep s ns l → peek k s = Recency.assoc k l.
Proof.
  intros R. unfold peek. destruct (cache s !! k) as [a|] eqn:Hk; simpl.
  - destruct (Rep_resident _ _ _ _ _ R Hk)
      as (l1 & l2 & e1 & e2 & v & -> & -> & F1 & F2 & Ea & N1 & N2).
    by rewrite assoc_split, valof_entry, Ea.
  - symmetry. apply assoc_None. by eapply Rep_absent.
Qed.

Lemma Rep_new (blank : V) c s : new blank c = inr s → Rep s [] [].
Proof.
  unfold new. destruct (c <=? 0); [done|]. intros [= <-].
  split; simpl; try done.
  - split; simpl; try done.
    + apply NoDup_cons. split; [set_solver|]. apply NoDup_singleton.
    + intros x Hx. unfold valid.
      assert (x = 0 ∨ x = 1)%nat as [->| ->] by set_solver; simpl; eauto.
  - intros k a. rewrite lookup_empty. set_solver.
Qed.

Lemma Rep_resident_iff s ns l k :
  Rep s ns l → is_Some (cache s !! k) ↔ k ∈ l.*1.
Proof.
  intros R. split.
  - intros [a Hk].
    destruct (Rep_resident _ _ _ _ _ R Hk)
      as (l1 & l2 & e1 & e2 & v & -> & -> & _).
    rewrite fmap_app. simpl. set_solver.
  - intros Hk. destruct (cache s !! k) eqn:E; [eauto|].
    by apply (Rep_absent _ _ _ _ R) in E.
Qed.

Lemma Rep_dom s ns l : Rep s ns l → dom (cache s) = list_to_set l.*1.
Proof.
  intros R. apply set_eq. intros k.
  rewrite elem_of_dom, elem_of_list_to_set. by eapply Rep_resident_iff.
Qed.

Lemma Rep_NoDup s ns l : Rep s ns l → NoDup l.*1.
Proof.
  intros [L F I Sz]. apply NoDup_alt. intros i j k Hi Hj.
  apply list_lookup_fmap_Some in Hi as ([k1 v1] & E1 & Hi).
  apply list_lookup_fmap_Some in Hj as ([k2 v2] & E2 & Hj).
  simpl in *. subst k1 k2.
  destruct (Forall2_lookup_r _ _ _ _ _ F Hi) as (a & Ha & Ea).
  destruct (Forall2_lookup_r _ _ _ _ _ F Hj) as (b & Hb & Eb).
  assert (cache s !! k = Some a) as Ka.
  { apply I. split; [by eapply list_elem_of_lookup_2|].
    by rewrite keyof_entry, Ea. }
  assert (cache s !! k = Some b) as Kb.
  { apply I. split; [by eapply list_elem_of_lookup_2|].
    by rewrite keyof_entry, Eb. }
  assert (a = b) as -> by congruence.
  destruct L as [ND _ _ _]. apply NoDup_cons in ND as [_ ND].
  apply NoDup_app in ND as (ND & _ & _).
  by eapply NoDup_lookup.
Qed.

Lemma victim_Rep s ns l : Rep s ns l → victim s = hd_error l.*1.
Proof.
  intros [L F I Sz]. unfold victim. destruct F as [|a [k v] ns l Ea F].
  - destruct L as [_ Fw _ _]. simpl in Fw. destruct Fw as [-> _]. simpl.
    by rewrite decide_True.
  - destruct L as [ND Fw _ _]. simpl in Fw. destruct Fw as [-> _]. simpl.
    rewrite decide_False.
    + by rewrite keyof_entry, Ea.
    + intros ->. apply NoDup_cons in ND as [_ ND]. simpl in ND.
      apply NoDup_cons in ND as [ND _]. set_solver.
Qed.

Lemma assoc_is_None l k : Recency.assoc k l = None ↔ k ∉ l.*1.
Proof.
  split; [|apply assoc_None].
  induction l as [|[k' v] l IH]; simpl; [set_solver|].
  case_decide; [done|]. intros E. specialize (IH E). set_solver.
Qed.

Lemma evicts_Rep s ns l o :
  Rep s ns l → evicts o s = Recency.evicts (capacity s) o l.
Proof.
  intros R. destruct o as [k|k v]; simpl; [done|].
  destruct (cache s !! k) as [a|] eqn:Hk.
  - assert (is_Some (Recency.assoc k l)) as [v' ->]; [|done].
    rewrite <- (Rep_peek _ _ _ _ R). unfold peek. rewrite Hk. simpl.
    destruct R as [L _ I _]. apply I in Hk as [Ha _].
    rewrite valof_entry. apply fmap_is_Some, valid_entry.
    apply (linked_valid _ _ _ _ L). set_solver.
  - rewrite assoc_None by (by eapply Rep_absent).
    by rewrite (Rep_size _ _ _ R), (victim_Rep _ _ _ R).
Qed.

Lemma step_Rep s ns l o :
  Rep s ns l →
  ∃ s' ns', step o s = Some s' ∧
            Rep s' ns' (Recency.step (capacity s) o l) ∧
            capacity s' = capacity s.
Proof.
  intros R. destruct o as [k|k v]; simpl.
  - destruct (get_Rep _ _ _ k R) as (s' & ns' & -> & R' & _ & C).
    simpl. by exists s', ns'.
  - exact (set_Rep _ _ _ k v R).
Qed.

Lemma run_Rep s ns l ops :
  Rep s ns l →
  ∃ s' ns', run ops s = Some s' ∧
            Rep s' ns' (Recency.run (capacity s) ops l) ∧
            capacity s' = capacity s.
Proof.
  revert s ns l. induction ops as [|o ops IH]; intros s ns l R; simpl.
  - by exists s, ns.
  - destruct (step_Rep _ _ _ o R) as (s1 & ns1 & -> & R1 & C1). simpl.
    destruct (IH _ _ _ R1) as (s2 & ns2 & -> & R2 & C2).
    rewrite C1 in R2. exists s2, ns2. split_and!; [done|done|congruence].
Qed.

End Rep.

(** ** Facts about recency lists *)

Section RecencyFacts.
Context {V : Type}.
Implicit Types (l : list (string * V)) (k : string) (ks : list string).
Implicit Types (o : op V) (ops : list (op V)).

Lemma assoc_app l1 l2 k :
  Recency.assoc k (l1 ++ l2) =
  match Recency.assoc k l1 with
  | Some v => Some v
  | None => Recency.assoc k l2
  end.
Proof.
  induction l1 as [|[k' v'] l1 IH]; simpl; [done|]. by case_decide.
Qed.

Lemma keys_without l k :
  (Recency.without k l).*1 = filter (λ k', k' ≠ k) l.*1.
Proof.
  unfold Recency.without. induction l as [|[k' v'] l IH]; [done|].
  rewrite fmap_cons, !filter_cons. cbn [fst].
  destruct (decide (k' ≠ k)); [rewrite fmap_cons; cbn [fst]; f_equal|];
    exact IH.
Qed.

Lemma assoc_without_eq l k : Recency.assoc k (Recency.without k l) = None.
Proof.
  apply assoc_None. rewrite keys_without. intros H%list_elem_of_filter.
  tauto.
Qed.

Lemma assoc_without_ne l k k' :
  k ≠ k' → Recency.assoc k (Recency.without k' l) = Recency.assoc k l.
Proof.
  intros Hne. unfold Recency.without.
  induction l as [|[k0 v0] l IH]; [done|].
  rewrite filter_cons. simpl. repeat case_decide; simpl; subst; try done.
  - by rewrite decide_True.
  - by rewrite decide_False.
Qed.


Lemma assoc_set c k v l : Recency.assoc k (Recency.set c k v l) = Some v.
Proof.
  unfold Recency.set. destruct (Recency.assoc k l) eqn:E.
  - rewrite assoc_app, assoc_without_eq. simpl. by rewrite decide_True.
  - apply assoc_is_None in E. rewrite assoc_app.
    destruct (_ >=? _).
    + rewrite (assoc_None (tl l)).
      * simpl. by rewrite decide_True.
      * destruct l; simpl in *; set_solver.
    + rewrite (assoc_None l) by done. simpl. by rewrite decide_True.
Qed.


(** Lengths. *)
Lemma length_without l k v :
  NoDup l.*1 → Recency.assoc k l = Some v →
  S (length (Recency.without k l)) = length l.
Proof.
  unfold Recency.without. induction l as [|[k' v'] l IH]; simpl; [done|].
  intros [Hk' ND]%NoDup_cons. rewrite filter_cons. simpl.
  destruct (decide (k' = k)) as [->|Hne].
  - intros _. rewrite decide_False by tauto.
    fold (Recency.without k l). by rewrite without_id.
  - intros E. rewrite decide_True by done. simpl. by rewrite IH.
Qed.

Lemma length_step c o l :
  NoDup l.*1 → 0 < c → Z.of_nat (length l) <= c →
  Z.of_nat (length (Recency.step c o l)) <= c.
Proof.
  intros ND Hc Hl. destruct o as [k|k v]; simpl.
  - unfold Recency.get. destruct (Recency.assoc k l) as [v0|] eqn:E;
      [|done]. simpl. rewrite length_app. simpl.
    pose proof (length_without _ _ _ ND E). lia.
  - unfold Recency.set. destruct (Recency.assoc k l) as [v0|] eqn:E.
    + rewrite length_app. simpl.
      pose proof (length_without _ _ _ ND E). lia.
    + rewrite length_app. simpl.
      destruct (Z.geb_spec (Z.of_nat (length l)) c); [|lia].
      destruct l; simpl in *; lia.
Qed.

(** *** Recency order and the history of operations *)

Lemma increasing_ext (f f' : string → nat) ks :
  (∀ k, k ∈ ks → f' k = f k) → increasing f ks → increasing f' ks.
Proof.
  induction ks as [|k ks IH]; simpl; [done|]. intros E [H1 H2]. split.
  - rewrite Forall_forall in H1 |- *. intros k' Hk'.
    rewrite !E by set_solver. by apply H1.
  - apply IH; [|done]. intros; apply E; set_solver.
Qed.

Lemma increasing_filter (f : string → nat) (P : string → Prop)
    `{!∀ k, Decision (P k)} ks :
  increasing f ks → increasing f (filter P ks).
Proof.
  induction ks as [|k ks IH]; simpl; [done|]. intros [H1 H2].
  rewrite filter_cons. case_decide; simpl; [|by apply IH].
  split; [|by apply IH]. rewrite Forall_forall in H1 |- *.
  intros k' [_ Hk']%list_elem_of_filter. by apply H1.
Qed.

Lemma increasing_tl (f : string → nat) ks :
  increasing f ks → increasing f (tl ks).
Proof. destruct ks; simpl; tauto. Qed.

Lemma increasing_snoc (f : string → nat) ks k :
  increasing f ks → (∀ k', k' ∈ ks → (f k' < f k)%nat) →
  increasing f (ks ++ [k]).
Proof.
  induction ks as [|k0 ks IH]; simpl; [done|]. intros [H1 H2] Hlt. split.
  - apply Forall_app. split; [done|]. constructor; [|done].
    apply Hlt. set_solver.
  - apply IH; [done|]. intros; apply Hlt; set_solver.
Qed.

Lemma last_touch_snoc ops o k :
  last_touch (ops ++ [o]) k =
  if decide (op_key o = k) then S (length ops) else last_touch ops k.
Proof.
  induction ops as [|o' ops IH]; simpl.
  - by case_decide.
  - rewrite IH. case_decide; [done|]. done.
Qed.

Lemma last_touch_le ops k : (last_touch ops k ≤ length ops)%nat.
Proof.
  induction ops as [|o ops IH]; simpl; [done|].
  destruct (last_touch ops k); [case_decide|]; lia.
Qed.

Lemma run_snoc c ops o l :
  Recency.run c (ops ++ [o]) l = Recency.step c o (Recency.run c ops l).
Proof. unfold Recency.run. by rewrite foldl_snoc. Qed.

Lemma touched_last ops o ks :
  increasing (last_touch ops) ks → op_key o ∉ ks →
  increasing (last_touch (ops ++ [o])) (ks ++ [op_key o]).
Proof.
  intros Hi Hk. apply increasing_snoc.
  - eapply increasing_ext; [|done]. intros k Hk'.
    rewrite last_touch_snoc, decide_False; [done|]. set_solver.
  - intros k Hk'. rewrite !last_touch_snoc.
    destruct (decide (op_key o = k)) as [<-|_]; [done|].
    destruct (decide (op_key o = op_key o)); [|done].
    pose proof (last_touch_le ops k). lia.
Qed.

Lemma step_increasing c ops o l :
  increasing (last_touch ops) l.*1 →
  increasing (last_touch (ops ++ [o])) (Recency.step c o l).*1.
Proof.
  intros Hi.
  assert (increasing (last_touch (ops ++ [o]))
            ((Recency.without (op_key o) l).*1 ++ [op_key o])) as Hhit.
  { apply touched_last.
    - rewrite keys_without. by apply increasing_filter.
    - rewrite keys_without. intros H%list_elem_of_filter. tauto. }
  destruct o as [k|k v]; simpl in *.
  - unfold Recency.get. destruct (Recency.assoc k l) as [v0|] eqn:E; simpl.
    + by rewrite fmap_app.
    + eapply increasing_ext; [|done]. intros k' Hk'.
      rewrite last_touch_snoc, decide_False; [done|]. simpl.
      apply assoc_is_None in E. set_solver.
  - unfold Recency.set. destruct (Recency.assoc k l) as [v0|] eqn:E.
    + by rewrite fmap_app.
    + rewrite fmap_app. apply assoc_is_None in E.
      apply (touched_last ops (OpSet k v)).
      * destruct (_ >=? _); [|done]. destruct l; simpl in *; tauto.
      * simpl. destruct (_ >=? _); [|done]. destruct l; simpl in *;
          set_solver.
Qed.

Lemma run_increasing c ops :
  increasing (last_touch ops) (Recency.run c ops ([] : list (string * V))).*1.
Proof.
  induction ops as [|o ops IH] using rev_ind; [done|].
  rewrite run_snoc. by apply step_increasing.
Qed.

End RecencyFacts.

(** ** The store, seen from outside *)

Section StoreFacts.
Context {V : Type}.
Implicit Types (s : t V) (l : list (string * V)) (k : string).
Implicit Types (o : op V) (ops : list (op V)).

Lemma new_inr (blank : V) c s :
  new blank c = inr s → 0 < c ∧ capacity s = c ∧ cache s = ∅.
Proof.
  unfold new. destruct (Z.leb_spec c 0); simpl; [done|]. intros [= <-].
  simpl. split_and!; [lia|done|done].
Qed.

Lemma run_app ops1 ops2 s :
  run (ops1 ++ ops2) s = run ops1 s ≫= run ops2.
Proof.
  revert s. induction ops1 as [|o ops1 IH]; intros s; simpl; [done|].
  destruct (step o s); simpl; [apply IH|done].
Qed.

Lemma reachable_wf s : reachable s → wf s.
Proof.
  intros (blank & c & s0 & ops & N & R).
  destruct (run_Rep s0 [] [] ops (Rep_new _ _ _ N)) as (s' & ns' & R' & Rp & _).
  assert (s' = s) as -> by congruence. by eexists _, _.
Qed.

Lemma reachable_capacity s : reachable s → 0 < capacity s.
Proof.
  intros (blank & c & s0 & ops & N & R).
  destruct (run_Rep s0 [] [] ops (Rep_new _ _ _ N)) as (s' & ns' & R' & Rp & C).
  assert (s' = s) as -> by congruence. rewrite C.
  apply new_inr in N. lia.
Qed.

(** Occupancy stays within the capacity along a run. *)
Lemma run_bounded s ns l ops :
  Rep s ns l → 0 < capacity s → Z.of_nat (length l) <= capacity s →
  ∃ s' ns', run ops s = Some s' ∧
            Rep s' ns' (Recency.run (capacity s) ops l) ∧
            capacity s' = capacity s ∧
            Z.of_nat (size (cache s')) <= capacity s.
Proof.
  revert s ns l. induction ops as [|o ops IH]; intros s ns l R Hc Hl; simpl.
  - exists s, ns. split_and!; try done. by rewrite (Rep_size _ _ _ R).
  - destruct (step_Rep _ _ _ o R) as (s1 & ns1 & -> & R1 & C1). simpl.
    destruct (IH _ _ _ R1) as (s2 & ns2 & -> & R2 & C2 & B2).
    + lia.
    + rewrite C1. apply length_step; [by eapply Rep_NoDup|done..].
    + rewrite C1 in R2, B2. exists s2, ns2. split_and!; try done. congruence.
Qed.

Lemma reachable_bounded s :
  reachable s → Z.of_nat (size (cache s)) <= capacity s.
Proof.
  intros (blank & c & s0 & ops & N & R).
  pose proof (new_inr _ _ _ N) as (Hc & C & _).
  destruct (run_bounded s0 [] [] ops (Rep_new _ _ _ N))
    as (s' & ns' & R' & Rp & C' & B); [lia|simpl; lia|].
  assert (s' = s) as -> by congruence. lia.
Qed.


(** [get] and [set], for a well-formed store. *)
Lemma get_wf s k :
  wf s →
  ∃ s', get k s = Some (s', peek k s) ∧ wf s' ∧
        (∀ k', peek k' s' = peek k' s) ∧
        cache s' = cache s ∧ capacity s' = capacity s.
Proof.
  intros (ns & l & R).
  destruct (get_Rep _ _ _ k R) as (s' & ns' & G & R' & M & C).
  exists s'. rewrite (Rep_peek _ _ _ _ R). split_and!; try done.
  - rewrite G. f_equal. f_equal. unfold Recency.get.
    by destruct (Recency.assoc k l).
  - by eexists _, _.
  - intros k'. rewrite (Rep_peek _ _ _ _ R'), (Rep_peek _ _ _ _ R).
    unfold Recency.get. destruct (Recency.assoc k l) as [v|] eqn:E; [|done].
    simpl. rewrite assoc_app. destruct (decide (k' = k)) as [->|Hne].
    + rewrite assoc_without_eq. simpl. by rewrite decide_True.
    + rewrite assoc_without_ne by done.
      destruct (Recency.assoc k' l); [done|]. simpl.
      by rewrite decide_False.
Qed.

Lemma set_wf s k v :
  wf s →
  ∃ s', set k v s = Some s' ∧ wf s' ∧ peek k s' = Some v ∧
        (∀ k', k' ≠ k → peek k' s' = peek k' s ∨ peek k' s' = None) ∧
        capacity s' = capacity s.
Proof.
  intros (ns & l & R).
  destruct (set_Rep _ _ _ k v R) as (s' & ns' & G & R' & C).
  exists s'. split_and!; try done.
  - by eexists _, _.
  - by rewrite (Rep_peek _ _ _ _ R'), assoc_set.
  - intros k' Hne. rewrite (Rep_peek _ _ _ _ R'), (Rep_peek _ _ _ _ R).
    unfold Recency.set. destruct (Recency.assoc k l) as [v0|] eqn:E.
    + left. rewrite assoc_app, assoc_without_ne by done.
      destruct (Recency.assoc k' l); [done|]. simpl.
      by rewrite decide_False.
    + rewrite assoc_app. destruct (_ >=? _).
      * destruct l as [|[k0 v0] l]; simpl.
        -- left. by rewrite decide_False.
        -- destruct (decide (k0 = k')) as [->|Hne'].
           ++ right. pose proof (Rep_NoDup _ _ _ R) as ND. simpl in ND.
              apply NoDup_cons in ND as [ND _].
              rewrite (assoc_None l k') by done. simpl.
              by rewrite decide_False.
           ++ left. destruct (Recency.assoc k' l); [done|]. simpl.
              by rewrite decide_False.
      * left. destruct (Recency.assoc k' l); [done|]. simpl.
        by rewrite decide_False.
Qed.

(** The keys that leave the map in an operation are the one [evicts]
    names. *)
Lemma evicts_dom s o s' k :
  wf s → step o s = Some s' → k ∈ dom (cache s) →
  k ∉ dom (cache s') ↔ evicts o s = Some k.
Proof.
  intros (ns & l & R) St Hk.
  destruct (step_Rep _ _ _ o R) as (s_ & ns' & St' & R' & _).
  assert (s_ = s') as -> by congruence.
  rewrite (evicts_Rep _ _ _ _ R).
  rewrite (Rep_dom _ _ _ R) in Hk. rewrite (Rep_dom _ _ _ R').
  rewrite elem_of_list_to_set in Hk. rewrite elem_of_list_to_set.
  pose proof (Rep_NoDup _ _ _ R) as ND.
  destruct o as [k1|k1 v1]; simpl in *.
  - unfold Recency.get. destruct (Recency.assoc k1 l) as [v|] eqn:E; simpl.
    + rewrite fmap_app, keys_without. simpl. split; [|done].
      intros Hn. exfalso. apply Hn. rewrite elem_of_app, list_elem_of_filter.
      destruct (decide (k = k1)); set_solver.
    + split; [|done]. tauto.
  - unfold Recency.set. destruct (Recency.assoc k1 l) as [v|] eqn:E; simpl.
    + rewrite fmap_app, keys_without. simpl. split; [|done].
      intros Hn. exfalso. apply Hn. rewrite elem_of_app, list_elem_of_filter.
      destruct (decide (k = k1)); set_solver.
    + apply assoc_is_None in E. rewrite fmap_app. simpl.
      destruct (_ >=? _).
      * destruct l as [|[e ve] l0]; simpl in *; [set_solver|].
        apply NoDup_cons in ND as [He _]. split.
        -- intros Hn. f_equal. set_solver.
        -- intros [= ->]. set_solver.
      * split; [|done]. set_solver.
Qed.

(** A key enters the map only by a [set] of that key. *)
Lemma step_dom_sub s o s' k :
  wf s → step o s = Some s' → k ∈ dom (cache s') →
  k ∈ dom (cache s) ∨ ∃ v, o = OpSet k v.
Proof.
  intros (ns & l & R) St.
  destruct (step_Rep _ _ _ o R) as (s_ & ns' & St' & R' & _).
  assert (s_ = s') as -> by congruence.
  rewrite (Rep_dom _ _ _ R), (Rep_dom _ _ _ R').
  rewrite !elem_of_list_to_set.
  destruct o as [k1|k1 v1]; simpl.
  - unfold Recency.get. destruct (Recency.assoc k1 l) as [v|] eqn:E; simpl;
      [|by left].
    rewrite fmap_app, keys_without, elem_of_app, list_elem_of_filter. simpl.
    intros [[_ ?]|Hk]; [by left|]. left.
    assert (k = k1) as -> by set_solver.
    apply dec_stable. intros Hn%assoc_is_None. congruence.
  - unfold Recency.set. destruct (Recency.assoc k1 l) as [v|] eqn:E.
    + rewrite fmap_app, keys_without, elem_of_app, list_elem_of_filter.
      simpl. intros [[_ ?]|Hk]; [by left|]. right. exists v1.
      f_equal. set_solver.
    + rewrite fmap_app, elem_of_app. simpl. intros [Hk|Hk].
      * left. destruct (_ >=? _); [|done].
        destruct l; simpl in *; set_solver.
      * right. exists v1. f_equal. set_solver.
Qed.

Lemma run_snoc_inv ops o s0 s' :
  run (ops ++ [o]) s0 = Some s' →
  ∃ s, run ops s0 = Some s ∧ step o s = Some s'.
Proof.
  rewrite run_app. destruct (run ops s0) as [s|]; simpl; [|done].
  destruct (step o s) as [s1|] eqn:St; simpl; [|done].
  intros [= <-]. eauto.
Qed.

(** For a resident key, the last operation that names it did touch it: it
    is a [set], or a [get] that found the key in the map.  So [last_touch]
    is, for the resident keys, the position of their last touch. *)
Lemma last_touch_is_touch (blank : V) c s0 ops : ∀ s k,
  new blank c = inr s0 → run ops s0 = Some s → k ∈ dom (cache s) →
  ∃ pre o post s1,
    ops = pre ++ o :: post ∧ op_key o = k ∧
    last_touch ops k = S (length pre) ∧
    (∀ o', o' ∈ post → op_key o' ≠ k) ∧
    run pre s0 = Some s1 ∧
    match o with
    | OpSet _ _ => True
    | OpGet _ => k ∈ dom (cache s1)
    end.
Proof.
  induction ops as [|o ops IH] using rev_ind; intros s k N R Hk.
  - simpl in R. injection R as <-. apply new_inr in N as (_ & _ & M).
    rewrite M in Hk. set_solver.
  - apply run_snoc_inv in R as (s1 & R1 & St).
    assert (wf s1) as W.
    { apply reachable_wf. by exists blank, c, s0, ops. }
    destruct (decide (op_key o = k)) as [Ek|Hne].
    + exists ops, o, [], s1. split_and!; try done.
      * by rewrite last_touch_snoc, decide_True.
      * set_solver.
      * destruct o as [k1|k1 v1]; [|done]. simpl in *. subst k1.
        destruct (get_wf s1 k W) as (s_ & G & _ & _ & M & _).
        rewrite G in St. simpl in St. injection St as <-.
        by rewrite <- M.
    + destruct (step_dom_sub s1 o s k W St Hk) as [Hk1|[v ->]]; [|done].
      destruct (IH s1 k N R1 Hk1) as (pre & o1 & post & s2 & -> & E1 & L & P
                                      & R2 & T).
      exists pre, o1, (post ++ [o]), s2. split_and!; try done.
      * by rewrite <- app_assoc.
      * by rewrite last_touch_snoc, decide_False.
      * intros o' [Ho'|Ho']%elem_of_app; [by apply P|].
        assert (o' = o) as -> by set_solver. done.
Qed.

End StoreFacts.

End LRUFacts.

(** * Verification of the cache *)

Module CacheFacts.
Import Cache CacheInv.

Section Facts.
Context {V E : Type} (blank : CacheEntry V).
Implicit Types (c : t V E) (k key : string) (p : nat) (now : Z).
Implicit Types (ev : event V E) (evs : list (event V E)).
Implicit Types (rs : list (string * result V)).

Local Abbreviation reachable := (CacheInv.reachable blank).
Local Abbreviation reachable_at := (CacheInv.reachable_at blank).
Local Abbreviation peek k c := (LRUCache.peek k (lruCache c)).

Lemma get_unfold now k c :
  StoreInv.wf (lruCache c) →
  ∃ lru, LRUCache.get k (lruCache c) = Some (lru, peek k c) ∧
    StoreInv.wf lru ∧
    (∀ k', LRUCache.peek k' lru = peek k' c) ∧
    LRUCache.cache lru = LRUCache.cache (lruCache c) ∧
    get now k c =
      Some (match peek k c with
            | Some e =>
                if fresh now (maxDuration c) e
                then (with_lru lru c, Returned (value e))
                else join_or_fetch k (with_lru lru c)
            | None => join_or_fetch k (with_lru lru c)
            end).
Proof.
  intros W.
  destruct (LRUFacts.get_wf (lruCache c) k W) as (lru & G & W' & Pk & M & _).
  exists lru. split_and!; try done. unfold get. rewrite G. simpl.
  destruct (peek k c) as [e|]; [|done]. by destruct (fresh _ _ _).
Qed.

Lemma join_or_fetch_Inv k c :
  Inv c → Inv (join_or_fetch k c).1.
Proof.
  intros [W I]. unfold join_or_fetch.
  destruct (inFlightRequests c !! k) as [p0|] eqn:Hk; [done|].
  split; [done|]. simpl. intros p k'.
  rewrite lookup_insert. case_decide as D.
  - subst k'. split.
    + intros Hp. f_equal. apply lookup_app_Some in Hp as [Hp|[Hge Hp]].
      * apply I in Hp. congruence.
      * apply list_lookup_singleton_Some in Hp as [Hp _]. lia.
    + intros [= <-]. rewrite lookup_app_r by lia.
      by replace (length (promises c) - length (promises c))%nat
        with 0%nat by lia.
  - rewrite <- I. split.
    + intros Hp. apply lookup_app_Some in Hp as [Hp|[Hge Hp]]; [done|].
      apply list_lookup_singleton_Some in Hp as [_ Hp]. congruence.
    + intros Hp. by apply lookup_app_l_Some.
Qed.

Lemma get_Inv now k c :
  Inv c → ∃ c' r, get now k c = Some (c', r) ∧ Inv c'.
Proof.
  intros [W I].
  destruct (get_unfold now k c W) as (lru & _ & W' & _ & _ & ->).
  assert (Inv (with_lru lru c)) as I' by done.
  eexists _, _. split; [f_equal; apply surjective_pairing|].
  destruct (peek k c) as [e|]; [destruct (fresh _ _ _)|]; simpl; try done;
    by apply join_or_fetch_Inv.
Qed.

(** Settling a pending fetch. *)
Lemma settle_unfold now p r c k :
  Inv c → promises c !! p = Some (Pending k) →
  ∃ lru, settle now p r c =
         Some (mk lru (maxDuration c) (delete k (inFlightRequests c))
                  (<[p := match r with
                          | inl v => Fulfilled v
                          | inr e => Rejected e
                          end]> (promises c))
                  (fetcherCalls c)) ∧
    StoreInv.wf lru ∧
    match r with
    | inl v =>
        LRUCache.set k (mkEntry v now) (lruCache c) = Some lru ∧
        LRUCache.peek k lru = Some (mkEntry v now) ∧
        ∀ k', k' ≠ k → LRUCache.peek k' lru = peek k' c ∨
                       LRUCache.peek k' lru = None
    | inr e => lru = lruCache c
    end.
Proof.
  intros [W I] Hp. unfold settle. rewrite Hp. destruct r as [v|e].
  - destruct (LRUFacts.set_wf (lruCache c) k (mkEntry v now) W)
      as (lru & St & W' & Pk & Po & _).
    exists lru. rewrite St. simpl. by split_and!.
  - exists (lruCache c). by split_and!.
Qed.

Lemma settle_Inv now p r c k :
  Inv c → promises c !! p = Some (Pending k) →
  ∃ c', settle now p r c = Some c' ∧ Inv c'.
Proof.
  intros Hi Hp.
  destruct (settle_unfold now p r c k Hi Hp) as (lru & -> & W & _).
  eexists. split; [done|]. split; [done|]. simpl.
  destruct Hi as [_ I]. intros p' k'.
  assert (p < length (promises c))%nat as Hlt by (by eapply lookup_lt_Some).
  destruct (decide (p' = p)) as [->|Hne].
  - rewrite list_lookup_insert_eq by done. split.
    + by destruct r.
    + intros [Hk' Hp']%lookup_delete_Some. apply I in Hp'. congruence.
  - rewrite list_lookup_insert_ne by done. rewrite I. split.
    + intros Hp'. apply lookup_delete_Some. split; [|done].
      intros <-. apply I in Hp. congruence.
    + by intros [_ ?]%lookup_delete_Some.
Qed.

Lemma new_Inv capacity maxDuration c :
  new blank capacity maxDuration = inr c → Inv c.
Proof.
  unfold new. destruct (LRUCache.new blank capacity) as [|lru] eqn:N; [done|].
  intros [= <-]. split; simpl.
  - exists [], []. by eapply LRUFacts.Rep_new.
  - intros p k. by rewrite lookup_empty, lookup_nil.
Qed.

Lemma step_Inv ev c c' rs : Inv c → step ev c = Some (c', rs) → Inv c'.
Proof.
  intros Hi. destruct ev as [now k|now p r]; simpl.
  - destruct (get_Inv now k c Hi) as (c1 & r1 & -> & Hi1). simpl.
    by intros [= <- <-].
  - unfold settle at 1.
    destruct (promises c !! p) as [[k| |]|] eqn:Hp; simpl; try done.
    destruct (settle_Inv now p r c k Hi Hp) as (c1 & S1 & Hi1).
    revert S1. unfold settle. rewrite Hp. intros ->. simpl.
    by intros [= <- <-].
Qed.

Lemma run_Inv evs c c' rs : Inv c → run evs c = Some (c', rs) → Inv c'.
Proof.
  revert c rs. induction evs as [|ev evs IH]; intros c rs Hi; simpl.
  - by intros [= <- <-].
  - destruct (step ev c) as [[c1 rs1]|] eqn:S1; simpl; [|done].
    destruct (run evs c1) as [[c2 rs2]|] eqn:R2; simpl; [|done].
    intros [= <- <-]. eapply IH; [|done]. by eapply step_Inv.
Qed.

Lemma reachable_Inv c : reachable c → Inv c.
Proof.
  intros (cap & D & c0 & evs & rs & N & R).
  eapply run_Inv; [|done]. by eapply new_Inv.
Qed.

(** *** One miss episode *)

Lemma chained_to_app k rs1 rs2 :
  chained_to k (rs1 ++ rs2) = chained_to k rs1 ++ chained_to k rs2.
Proof. unfold chained_to. apply omap_app. Qed.

Lemma calls_for_snoc k c (lru : LRUCache.t (CacheEntry V)) fl
    (ps : list (promise V E)) k1 :
  calls_for k (mk lru (maxDuration c) fl ps (fetcherCalls c ++ [k1])) =
  if decide (k1 = k) then S (calls_for k c) else calls_for k c.
Proof.
  unfold calls_for. simpl. rewrite filter_app, length_app, filter_cons.
  case_decide; simpl; lia.
Qed.

(** What one event does to the in-flight request of [k], to the number of
    fetcher calls for [k], and which promise it hands to a caller of
    [get(k)]: nothing; or the caller joins the request in flight; or, with
    none in flight, the fetcher is called and a new request is in flight. *)
Lemma step_episode k ev c :
  Inv c →
  match ev with
  | EvGet _ _ => True
  | EvSettle _ _ _ => ∃ k', settles ev c = Some k' ∧ k' ≠ k
  end →
  ∃ c1 rs1, step ev c = Some (c1, rs1) ∧ Inv c1 ∧
    ((inFlightRequests c1 !! k = inFlightRequests c !! k ∧
      calls_for k c1 = calls_for k c ∧ chained_to k rs1 = []) ∨
     (∃ p, inFlightRequests c !! k = Some p ∧
           inFlightRequests c1 !! k = Some p ∧
           calls_for k c1 = calls_for k c ∧ chained_to k rs1 = [p]) ∨
     (∃ p, inFlightRequests c !! k = None ∧
           inFlightRequests c1 !! k = Some p ∧
           calls_for k c1 = S (calls_for k c) ∧ chained_to k rs1 = [p])).
Proof.
  intros Hi Hev. destruct ev as [now k1|now p r].
  - destruct (get_Inv now k1 c Hi) as (c1 & r1 & G & Hi1).
    exists c1, [(k1, r1)]. simpl. rewrite G. simpl. split_and!; try done.
    destruct Hi as [W I].
    destruct (get_unfold now k1 c W) as (lru & _ & _ & _ & _ & G').
    rewrite G in G'. injection G' as G'.
    assert (c1 = with_lru lru c ∧ (∃ v, r1 = Returned v) ∨
            (c1, r1) = join_or_fetch k1 (with_lru lru c)) as [[-> [v ->]]|J].
    { destruct (peek k1 c) as [e|]; [destruct (fresh _ _ _)|];
        try (by right). left. injection G' as -> ->. eauto. }
    + by left.
    + unfold join_or_fetch in J. simpl in J.
      destruct (inFlightRequests c !! k1) as [p0|] eqn:Hk1.
      * injection J as -> ->. simpl. case_decide as D; simpl.
        -- subst k1. right. left. by exists p0.
        -- by left.
      * injection J as -> ->. simpl. rewrite calls_for_snoc.
        rewrite lookup_insert. case_decide as D; simpl.
        -- subst k1. right. right. by exists (length (promises c)).
        -- by left.
  - destruct Hev as (k' & Hs & Hne). simpl in Hs.
    destruct (promises c !! p) as [[k0| |]|] eqn:Hp; try done.
    injection Hs as ->.
    destruct (settle_Inv now p r c k' Hi Hp) as (c1 & S1 & Hi1).
    exists c1, []. simpl. rewrite S1. simpl. split_and!; try done. left.
    destruct (settle_unfold now p r c k' Hi Hp) as (lru & S1' & _).
    rewrite S1 in S1'. injection S1' as ->. simpl.
    by rewrite lookup_delete_ne.
Qed.

Lemma episode k evs : ∀ c,
  Inv c → unsettled k evs c →
  ∃ c' rs, run evs c = Some (c', rs) ∧ Inv c' ∧
    (∀ p, inFlightRequests c !! k = Some p →
       ∃ n, chained_to k rs = replicate n p ∧
            calls_for k c' = calls_for k c ∧
            inFlightRequests c' !! k = Some p) ∧
    (inFlightRequests c !! k = None →
       (chained_to k rs = [] ∧ calls_for k c' = calls_for k c ∧
        inFlightRequests c' !! k = None) ∨
       (∃ p n, chained_to k rs = replicate (S n) p ∧
               calls_for k c' = S (calls_for k c) ∧
               inFlightRequests c' !! k = Some p)).
Proof.
  induction evs as [|ev evs IH]; intros c Hi Hu.
  - exists c, []. simpl. split_and!; try done.
    + intros p Hp. by exists 0%nat.
    + intros Hk. by left.
  - simpl in Hu. destruct Hu as [Hev Hu].
    destruct (step_episode k ev c Hi) as (c1 & rs1 & S1 & Hi1 & Hcase).
    { by destruct ev. }
    rewrite S1 in Hu.
    destruct (IH c1 Hi1 Hu) as (c' & rs & R & Hi' & HS & HN).
    exists c', (rs1 ++ rs). simpl. rewrite S1. simpl. rewrite R. simpl.
    split_and!; try done.
    + intros p Hp. rewrite chained_to_app.
      destruct Hcase as [(F & C & Ch)|[(p' & F & F1 & C & Ch)|(p' & F & _)]].
      * rewrite F in HS. destruct (HS p Hp) as (n & -> & C' & F').
        exists n. rewrite Ch. split_and!; [done|congruence|done].
      * assert (p' = p) as -> by congruence.
        destruct (HS p F1) as (n & -> & C' & F').
        exists (S n). rewrite Ch. split_and!; [done|congruence|done].
      * congruence.
    + intros Hk. rewrite chained_to_app.
      destruct Hcase as [(F & C & Ch)|[(p' & F & _)|(p' & F & F1 & C & Ch)]].
      * rewrite F in HN. rewrite Ch. simpl.
        destruct (HN Hk) as [(-> & C' & F')|(p & n & -> & C' & F')].
        -- left. split_and!; [done|congruence|done].
        -- right. exists p, n. split_and!; [done|congruence|done].
      * congruence.
      * destruct (HS p' F1) as (n & -> & C' & F').
        right. exists p', n. rewrite Ch. split_and!; [done|congruence|done].
Qed.

Lemma step_settled ev c c' rs p o :
  promises c !! p = Some o → settled o → step ev c = Some (c', rs) →
  promises c' !! p = Some o.
Proof.
  intros Hp Ho. destruct ev as [now k|now p' r]; simpl.
  - unfold get. destruct (LRUCache.get k (lruCache c)) as [[lru e]|]; simpl;
      [|done].
    assert (∀ c1 r1, join_or_fetch k (with_lru lru c) = (c1, r1) →
                     promises c1 !! p = Some o) as J.
    { unfold join_or_fetch. simpl. intros c1 r1.
      destruct (inFlightRequests c !! k); intros [= <- <-]; simpl; [done|].
      by apply lookup_app_l_Some. }
    fold (with_lru lru c).
    destruct e as [e|]; [destruct (fresh _ _ _)|]; simpl.
    + by intros [= <- <-].
    + destruct (join_or_fetch _ _) as [c1 r1] eqn:Ej. intros [= <- <-].
      by eapply J.
    + destruct (join_or_fetch _ _) as [c1 r1] eqn:Ej. intros [= <- <-].
      by eapply J.
  - unfold settle. destruct (promises c !! p') as [[k| |]|] eqn:Hp';
      simpl; try done.
    assert (p ≠ p') as Hne by (intros ->; rewrite Hp in Hp'; by simplify_eq).
    destruct r as [v|e].
    + destruct (LRUCache.set _ _ _); simpl; [|done]. intros [= <- <-].
      simpl. by rewrite list_lookup_insert_ne.
    + intros [= <- <-]. simpl. by rewrite list_lookup_insert_ne.
Qed.

Lemma run_settled evs c c' rs p o :
  promises c !! p = Some o → settled o → run evs c = Some (c', rs) →
  promises c' !! p = Some o.
Proof.
  revert c rs. induction evs as [|ev evs IH]; intros c rs Hp Ho; simpl.
  - by intros [= <- <-].
  - destruct (step ev c) as [[c1 rs1]|] eqn:S1; simpl; [|done].
    destruct (run evs c1) as [[c2 rs2]|] eqn:R2; simpl; [|done].
    intros [= <- <-]. eapply IH; [|done|done]. by eapply step_settled.
Qed.

(** *** The clock *)

Lemma fresh_false now D (e : CacheEntry V) :
  fresh now D e = false ↔ timestamp e + D <= now.
Proof. unfold fresh. rewrite Z.ltb_ge. lia. Qed.

Lemma fresh_true now D (e : CacheEntry V) :
  fresh now D e = true ↔ now < timestamp e + D.
Proof. unfold fresh. rewrite Z.ltb_lt. lia. Qed.

(** The shapes of the cache after [get]. *)
Lemma get_cases now k c :
  Inv c →
  ∃ lru, LRUCache.get k (lruCache c) = Some (lru, peek k c) ∧
    StoreInv.wf lru ∧ (∀ k', LRUCache.peek k' lru = peek k' c) ∧
    LRUCache.cache lru = LRUCache.cache (lruCache c) ∧
    ((∃ e, peek k c = Some e ∧ now < timestamp e + maxDuration c ∧
           get now k c = Some (with_lru lru c, Returned (value e))) ∨
     (absent_or_stale now k c ∧
      get now k c = Some (join_or_fetch k (with_lru lru c)))).
Proof.
  intros [W I].
  destruct (get_unfold now k c W) as (lru & G & W' & Pk & M & ->).
  exists lru. split_and!; try done. unfold absent_or_stale.
  destruct (peek k c) as [e|]; [|by right].
  destruct (fresh now (maxDuration c) e) eqn:F.
  - left. exists e. by apply fresh_true in F.
  - right. split; [|done]. intros e' [= <-]. by apply fresh_false.
Qed.

Lemma join_or_fetch_lru k c : lruCache (join_or_fetch k c).1 = lruCache c.
Proof. unfold join_or_fetch. by destruct (inFlightRequests c !! k). Qed.

Lemma join_or_fetch_maxDuration k c :
  maxDuration (join_or_fetch k c).1 = maxDuration c.
Proof. unfold join_or_fetch. by destruct (inFlightRequests c !! k). Qed.

Lemma join_or_fetch_chained k c : ∃ p, (join_or_fetch k c).2 = Chained p.
Proof.
  unfold join_or_fetch. destruct (inFlightRequests c !! k); simpl; eauto.
Qed.

(** A key that is absent or stale stays so while the clock does not go
    backwards and no fetch for the key settles; a [get] of the key is then
    chained to a promise. *)
Lemma step_stale T k ev c c1 rs1 :
  Inv c → absent_or_stale T k c → T <= ev_time ev →
  settles ev c ≠ Some k → step ev c = Some (c1, rs1) →
  absent_or_stale (ev_time ev) k c1 ∧
  length (chained_to k rs1) = gets_of k [ev].
Proof.
  intros Hi Hs HT Hk. destruct ev as [now k1|now p r]; simpl in *.
  - destruct (get_cases now k1 c Hi) as (lru & _ & _ & Pk & _ & Hc).
    assert (∀ c', lruCache c' = lru → maxDuration c' = maxDuration c →
                  absent_or_stale now k c') as St.
    { intros c' El Ed e. rewrite El, Ed, Pk. intros He.
      specialize (Hs e He). lia. }
    destruct Hc as [(e & He & Hf & ->)|[Ha ->]]; simpl.
    + intros [= <- <-].
      split; [by apply St|]. simpl. case_decide; [|done]. subst k1.
      specialize (Hs e He). lia.
    + pose proof (join_or_fetch_lru k1 (with_lru lru c)) as El.
      pose proof (join_or_fetch_maxDuration k1 (with_lru lru c)) as Ed.
      destruct (join_or_fetch_chained k1 (with_lru lru c)) as [p Ep].
      destruct (join_or_fetch k1 (with_lru lru c)) as [cj rj].
      simpl in *. subst rj. intros [= <- <-].
      split; [by apply St|]. simpl. by case_decide.
  - unfold settle. destruct (promises c !! p) as [[kp| |]|] eqn:Hp;
      simpl; try done.
    destruct (settle_unfold now p r c kp Hi Hp) as (lru & S1 & _ & Hr).
    unfold settle in S1. rewrite Hp in S1. rewrite S1. simpl.
    intros [= <- <-]. split; [|done]. intros e. simpl.
    destruct r as [v|err].
    + destruct Hr as (_ & _ & Po).
      destruct (Po k) as [-> | ->]; [congruence| |done].
      intros He. specialize (Hs e He). lia.
    + subst lru. intros He. specialize (Hs e He). lia.
Qed.

Lemma unsettled_settles k ev evs c :
  unsettled k (ev :: evs) c → settles ev c ≠ Some k.
Proof.
  simpl. intros [H _]. destruct ev; [done|].
  destruct H as (k' & -> & Hne). congruence.
Qed.

Lemma run_stale k evs : ∀ T c c' rs,
  Inv c → absent_or_stale T k c → monotone T evs → unsettled k evs c →
  run evs c = Some (c', rs) →
  absent_or_stale (last_time T evs) k c' ∧
  length (chained_to k rs) = gets_of k evs.
Proof.
  induction evs as [|ev evs IH]; intros T c c' rs Hi Hs Hm Hu; simpl.
  - by intros [= <- <-].
  - pose proof (unsettled_settles _ _ _ _ Hu) as Hk.
    destruct Hm as [HT Hm]. simpl in Hu. destruct Hu as [_ Hu].
    destruct (step ev c) as [[c1 rs1]|] eqn:S1; simpl; [|done].
    destruct (run evs c1) as [[c2 rs2]|] eqn:R2; simpl; [|done].
    intros [= <- <-].
    destruct (step_stale T k ev c c1 rs1) as [Hs1 Hl1]; try done.
    assert (Inv c1) as Hi1 by (by eapply step_Inv).
    destruct (IH (ev_time ev) c1 c2 rs2 Hi1 Hs1 Hm Hu R2) as [Hs2 Hl2].
    split; [done|]. rewrite chained_to_app, length_app, Hl1, Hl2.
    simpl. destruct ev; simpl; lia.
Qed.



Lemma reachable_at_reachable T c : reachable_at T c → reachable c.
Proof.
  induction 1 as [cap D c T N|T c ev c' rs _ IH HT Hst].
  - exists cap, D, c, [], []. by split.
  - destruct IH as (cap & D & c0 & evs & rs0 & N & R).
    exists cap, D, c0, (evs ++ [ev]), (rs0 ++ rs). split; [done|].
    clear N. revert c0 rs0 R. induction evs as [|ev' evs IH];
      intros c0 rs0; simpl.
    + intros [= -> <-]. rewrite Hst. simpl. by rewrite app_nil_r.
    + destruct (step ev' c0) as [[c1 rs1]|]; simpl; [|done].
      destruct (run evs c1) as [[c2 rs2]|] eqn:R2; simpl; [|done].
      intros [= <- <-]. rewrite (IH c1 rs2 R2). simpl.
      by rewrite app_assoc.
Qed.


End Facts.

End CacheFacts.

(** * The store: claims *)

Section StoreClaims.
Import LRUCache StoreInv LRUFacts.
Context {V : Type}.
Implicit Types (s : t V) (k : string) (ops : list (op V)).


(** C4. In a store that holds as many keys as its capacity, [set] of a key
    that is not resident evicts one key: the resident key whose last [get]
    or [set] is the oldest ([last_touch], which for a resident key is the
    position of an operation that did touch it, see [last_touch_is_touch]).
    All other keys stay, with their values, the new key comes in, and the
    number of entries is as before.  [set] of a resident key evicts nothing
    and leaves the map of keys as it is. *)
Theorem C4_evicts_least_recently_touched (blank : V) (c : Z) s0 ops s :
  new blank c = inr s0 → run ops s0 = Some s →
  (Z.of_nat (size (cache s)) = c →
   ∀ k v, cache s !! k = None →
     ∃ e s', set k v s = Some s' ∧ evicts (OpSet k v) s = Some e ∧
       e ∈ dom (cache s) ∧
       (∀ k', k' ∈ dom (cache s) → k' ≠ e →
              (last_touch ops e < last_touch ops k')%nat) ∧
       dom (cache s') = {[k]} ∪ (dom (cache s) ∖ {[e]}) ∧
       (∀ k', k' ≠ e → k' ≠ k → peek k' s' = peek k' s) ∧
       peek k s' = Some v ∧
       size (cache s') = size (cache s)) ∧
  (∀ k v, is_Some (cache s !! k) →
     ∃ s', set k v s = Some s' ∧ evicts (OpSet k v) s = None ∧
           cache s' = cache s ∧ peek k s' = Some v).
Proof.
  intros N Run.
  pose proof (new_inr _ _ _ N) as (Hc & C0 & _).
  destruct (run_Rep s0 [] [] ops (Rep_new _ _ _ N))
    as (s_ & ns & Run' & R & C).
  assert (s_ = s) as -> by congruence.
  rewrite C0 in R. set (l := Recency.run c ops []) in *.
  pose proof (run_increasing c ops : increasing _ l.*1) as Inc.
  pose proof (Rep_NoDup _ _ _ R) as ND.
  split.
  - intros Full k v Hk.
    destruct (set_Rep _ _ _ k v R) as (s' & ns' & St & R' & C').
    pose proof (Rep_absent _ _ _ _ R Hk) as Hk'.
    rewrite (Rep_size _ _ _ R) in Full.
    destruct l as [|[e ve] l'] eqn:El; [simpl in Full; lia|].
    assert (Recency.set (capacity s) k v ((e, ve) :: l') = l' ++ [(k, v)])
      as Es.
    { unfold Recency.set. rewrite (assoc_None _ _ Hk').
      destruct (Z.geb_spec (Z.of_nat (length ((e, ve) :: l'))) (capacity s));
        [done|lia]. }
    rewrite Es in R'. simpl in ND, Inc, Hk'.
    apply NoDup_cons in ND as [He ND]. destruct Inc as [Inc _].
    exists e, s'. split_and!.
    + done.
    + rewrite (evicts_Rep _ _ _ _ R). simpl.
      rewrite decide_False by set_solver.
      rewrite (assoc_None l' k) by set_solver.
      by destruct (Z.geb_spec (Z.of_nat (S (length l'))) (capacity s));
        [|simpl in *; lia].
    + rewrite (Rep_dom _ _ _ R). set_solver.
    + intros k1 Hk1 Hne. rewrite (Rep_dom _ _ _ R) in Hk1.
      rewrite Forall_forall in Inc. apply Inc. set_solver.
    + rewrite (Rep_dom _ _ _ R), (Rep_dom _ _ _ R'), fmap_app. simpl.
      rewrite list_to_set_app_L. simpl.
      assert (e ∉ (list_to_set l'.*1 : gset string)) by set_solver.
      set_solver.
    + intros k1 H1 H2.
      rewrite (Rep_peek _ _ _ _ R), (Rep_peek _ _ _ _ R'), assoc_app. simpl.
      rewrite (decide_False (P := e = k1)) by congruence.
      rewrite (decide_False (P := k = k1)) by congruence.
      by destruct (Recency.assoc k1 l').
    + by rewrite (Rep_peek _ _ _ _ R'), <- Es, assoc_set.
    + rewrite (Rep_size _ _ _ R), (Rep_size _ _ _ R'), length_app. simpl.
      lia.
  - intros k v [a Hk].
    destruct (set_wf s k v) as (s' & St & _ & Pk & _); [by eexists _, _|].
    exists s'. split_and!; try done.
    + simpl. by rewrite Hk.
    + revert St. unfold set. rewrite Hk.
      destruct (upd _ _ _) as [h0|]; simpl; [|done].
      destruct (removeNode _ _) as [h1|]; simpl; [|done].
      destruct (addToTail _ _ _) as [h2|]; simpl; [|done].
      by intros [= <-].
Qed.

(** C6. [get] of a resident key returns its value and moves the key to the
    end of the recency list, the other entries keeping their order: the key
    the next eviction takes is the first of the new list, which is not the
    key just read if another key is resident.  The map of keys is as
    before.  [get] of a key that is not resident returns [undefined] and
    changes nothing. *)
Theorem C6_get_promotes s k :
  reachable s →
  (∀ a, cache s !! k = Some a →
     ∃ s' v, get k s = Some (s', Some v) ∧ peek k s = Some v ∧
       entries s' = Recency.without k (entries s) ++ [(k, v)] ∧
       cache s' = cache s ∧
       victim s' = hd_error (keys s') ∧
       (∀ k', k' ≠ k → is_Some (cache s !! k') → victim s' ≠ Some k)) ∧
  (cache s !! k = None → get k s = Some (s, None)).
Proof.
  intros (ns & l & R)%reachable_wf. split.
  - intros a Hk.
    destruct (get_Rep _ _ _ k R) as (s' & ns' & G & R' & M & C).
    destruct (Rep_resident _ _ _ _ _ R Hk)
      as (l1 & l2 & e1 & e2 & v & -> & El & F1 & F2 & Ea & N1 & N2).
    assert (Recency.assoc k l = Some v) as Ak.
    { subst l. by apply assoc_split. }
    unfold Recency.get in G, R'. rewrite Ak in G, R'. simpl in G, R'.
    exists s', v. split_and!; try done.
    + by rewrite (Rep_peek _ _ _ _ R).
    + by rewrite (Rep_entries _ _ _ R'), (Rep_entries _ _ _ R).
    + rewrite (victim_Rep _ _ _ R'). unfold keys.
      by rewrite (Rep_entries _ _ _ R').
    + intros k' Hne Hk'. rewrite (victim_Rep _ _ _ R').
      apply (Rep_resident_iff _ _ _ _ R) in Hk'.
      rewrite fmap_app, keys_without. simpl.
      assert (k' ∈ filter (λ k0, k0 ≠ k) l.*1) as Hin.
      { by apply list_elem_of_filter. }
      destruct (filter (λ k0, k0 ≠ k) l.*1) as [|k0 ks] eqn:Ef;
        [set_solver|].
      simpl. intros [= ->].
      assert (k ∈ filter (λ k0, k0 ≠ k) l.*1) as Hin'.
      { rewrite Ef. set_solver. }
      apply list_elem_of_filter in Hin'. tauto.
  - intros Hk. unfold get. by rewrite Hk.
Qed.

End StoreClaims.

(** * The cache: claims *)

Section CacheClaims.
Import Cache CacheInv CacheFacts.
Context {V E : Type} (blank : CacheEntry V).
Implicit Types (c : t V E) (k : string) (p : nat) (now : Z).

Local Abbreviation reachable := (CacheInv.reachable blank).
Local Abbreviation reachable_at := (CacheInv.reachable_at blank).
Local Abbreviation peek k c := (LRUCache.peek k (lruCache c)).

(** C1. Take a reachable cache with no request for [k] in flight, and any
    events after it up to, and not including, the settlement of a fetch for
    [k]: calls of [get] for any keys, and settlements of fetches for other
    keys.  They all run.  If none of the calls [get(k)] was chained to a
    promise, the fetcher was not called for [k]; otherwise it was called for
    [k] exactly once, all these calls were chained to one promise [p], which
    is pending and in flight under [k], and which, when the fetch settles,
    takes the value or the error the fetcher's promise settled with and
    keeps it.  If [k] was absent or stale at the start and the clock does
    not go backwards, every call [get(k)] is chained.  At the end, as in
    every reachable state, no two pending fetches have the same key. *)
Theorem C1_single_flight c k (evs : list (event V E)) :
  reachable c → inFlightRequests c !! k = None → unsettled k evs c →
  ∃ c' rs, run evs c = Some (c', rs) ∧
    (calls_for k c' =
       calls_for k c + match chained_to k rs with [] => 0 | _ => 1 end)%nat ∧
    (∃ p, chained_to k rs = replicate (length (chained_to k rs)) p ∧
          (chained_to k rs ≠ [] →
             promises c' !! p = Some (Pending k) ∧
             inFlightRequests c' !! k = Some p ∧
             ∀ now r, ∃ c1, settle now p r c' = Some c1 ∧
               ∀ evs2 c2 rs2, run evs2 c1 = Some (c2, rs2) →
                 promises c2 !! p = Some (outcome r))) ∧
    (∀ T, absent_or_stale T k c → monotone T evs →
          length (chained_to k rs) = gets_of k evs) ∧
    (∀ k' p1 p2, promises c' !! p1 = Some (Pending k') →
                 promises c' !! p2 = Some (Pending k') → p1 = p2).
Proof.
  intros Hi%reachable_Inv Hk Hu.
  destruct (episode k evs c Hi Hu) as (c' & rs & R & Hi' & _ & HN).
  exists c', rs. split; [done|].
  assert (∀ k' p1 p2, promises c' !! p1 = Some (Pending k') →
                      promises c' !! p2 = Some (Pending k') → p1 = p2) as U.
  { destruct Hi' as [_ I]. intros k' p1 p2 H1%I H2%I. congruence. }
  assert (∀ T, absent_or_stale T k c → monotone T evs →
               length (chained_to k rs) = gets_of k evs) as G.
  { intros T Hs Hm.
    by destruct (run_stale k evs T c c' rs Hi Hs Hm Hu R) as [_ ?]. }
  destruct (HN Hk) as [(Ch & C & F)|(p & n & Ch & C & F)].
  - rewrite Ch in *. split_and!; [lia| |done|done]. by exists 0%nat.
  - rewrite Ch in *. split_and!; [simpl; lia| |done|done].
    exists p. rewrite length_replicate. split; [done|]. intros _.
    assert (promises c' !! p = Some (Pending k)) as Hp.
    { destruct Hi' as [_ I]. by apply I. }
    split_and!; [done|done|]. intros now r.
    destruct (settle_unfold now p r c' k Hi' Hp) as (lru & S1 & _).
    eexists. split; [exact S1|]. intros evs2 c2 rs2 R2.
    eapply run_settled; [|by destruct r|exact R2]. simpl.
    apply list_lookup_insert_eq. by eapply lookup_lt_Some.
Qed.



(** C8 (amended). [get] of a key that is not resident leaves the store as it
    is and goes on to the in-flight table: it joins the request for the key,
    or starts a fetch.  [get] of a resident key whose entry is stale goes on
    to the in-flight table in the same way, with the same table, promises
    and fetcher; the stale entry is not removed, and every resident key
    keeps its value; but the stale key is moved to the most recently used
    position of the store. *)
Theorem C8_stale_entry c k now :
  reachable c →
  (LRUCache.cache (lruCache c) !! k = None →
     get now k c = Some (join_or_fetch k c)) ∧
  (∀ e, peek k c = Some e → timestamp e + maxDuration c <= now →
     ∃ lru,
       get now k c =
         Some (join_or_fetch k
                 (mk lru (maxDuration c) (inFlightRequests c) (promises c)
                     (fetcherCalls c))) ∧
       LRUCache.cache lru = LRUCache.cache (lruCache c) ∧
       (∀ k', LRUCache.peek k' lru = peek k' c) ∧
       LRUCache.entries lru =
         Recency.without k (LRUCache.entries (lruCache c)) ++ [(k, e)]).
Proof.
  intros Hi%reachable_Inv. split.
  - intros Hk. unfold get, LRUCache.get. rewrite Hk. simpl.
    by destruct c.
  - intros e He Hge.
    destruct (get_cases now k c Hi) as (lru & G0 & _ & Pk & M & Hc).
    destruct Hc as [(e' & He' & Hlt & _)|[_ G]].
    { assert (e' = e) as -> by congruence. lia. }
    exists lru. split_and!; try done.
    destruct Hi as [(ns & l & R) _].
    destruct (LRUFacts.get_Rep _ _ _ k R) as (lru' & ns' & G1 & R' & _).
    rewrite G0 in G1. injection G1 as <- Eg.
    rewrite (LRUFacts.Rep_entries _ _ _ R'), (LRUFacts.Rep_entries _ _ _ R).
    rewrite (LRUFacts.Rep_peek _ _ _ _ R) in He.
    unfold Recency.get. by rewrite He.
Qed.

(** C9. With a capacity [c <= 0] the constructor of the store fails, and so
    does the constructor of the cache, which calls it first: no object is
    made on which a later operation could fail.  With [c > 0] both
    succeed; the store made has capacity [c] and no entry, the cache has
    that store, the given TTL, and no request in flight. *)
Theorem C9_capacity_checked (capacity maxDuration : Z) :
  (capacity <= 0 →
     LRUCache.new blank capacity
       = inl (LRUCache.Err "Capacity must be greater than 0") ∧
     new (E := E) blank capacity maxDuration
       = inl (LRUCache.Err "Capacity must be greater than 0")) ∧
  (0 < capacity →
     ∃ lru c,
       LRUCache.new blank capacity = inr lru ∧
       LRUCache.capacity lru = capacity ∧ LRUCache.cache lru = ∅ ∧
       LRUCache.entries lru = [] ∧
       new (E := E) blank capacity maxDuration = inr c ∧
       c = mk lru maxDuration ∅ [] []).
Proof.
  unfold new, LRUCache.new. split; intros Hc.
  - destruct (Z.leb_spec capacity 0); [done|lia].
  - destruct (Z.leb_spec capacity 0); [lia|]. by eexists _, _.
Qed.

End CacheClaims.

(** * The router *)

Module HrwFacts.
Import Hrw.

Section Router.
Variable hash32 : string → Z.
Implicit Types (key node sel : string) (rest pre : list string) (w : Q).

Local Abbreviation score := (Hrw.score hash32).
Local Abbreviation scan := (Hrw.scan hash32).

(** The loop keeps the first node of the highest score seen so far. *)
Lemma scan_max key w rest : ∀ pre sel i,
  pre !! i = Some sel →
  (∀ j m, pre !! j = Some m → (score key w m <= score key w sel)%Q) →
  (∀ j m, pre !! j = Some m → (j < i)%nat →
          (score key w m < score key w sel)%Q) →
  ∃ i' n, (pre ++ rest) !! i' = Some n ∧
    (scan key w rest sel (score key w sel)).1 = n ∧
    (∀ j m, (pre ++ rest) !! j = Some m →
            (score key w m <= score key w n)%Q) ∧
    (∀ j m, (pre ++ rest) !! j = Some m → (j < i')%nat →
            (score key w m < score key w n)%Q).
Proof.
  induction rest as [|node rest IH]; intros pre sel i Hi Hle Hlt.
  - exists i, sel. rewrite app_nil_r. by split_and!.
  - simpl. replace (pre ++ node :: rest) with ((pre ++ [node]) ++ rest)
      by (by rewrite <- app_assoc).
    destruct (Qlt_le_dec (score key w sel) (score key w node)) as [Lt|Le].
    + apply (IH (pre ++ [node]) node (length pre)).
      * rewrite lookup_app_r by lia.
        by replace (length pre - length pre)%nat with 0%nat by lia.
      * intros j m Hj. apply lookup_app_Some in Hj as [Hj|[_ Hj]].
        -- apply Qlt_le_weak. eapply Qle_lt_trans; [by eapply Hle|done].
        -- apply list_lookup_singleton_Some in Hj as [_ <-].
           apply Qle_refl.
      * intros j m Hj Hjl. apply lookup_app_Some in Hj as [Hj|[Hge _]];
          [|lia].
        eapply Qle_lt_trans; [by eapply Hle|done].
    + apply (IH (pre ++ [node]) sel i).
      * by apply lookup_app_l_Some.
      * intros j m Hj. apply lookup_app_Some in Hj as [Hj|[_ Hj]].
        -- by eapply Hle.
        -- by apply list_lookup_singleton_Some in Hj as [_ <-].
      * intros j m Hj Hjl. apply lookup_app_Some in Hj as [Hj|[Hge _]].
        -- by eapply Hlt.
        -- apply lookup_lt_Some in Hi. lia.
Qed.



End Router.

End HrwFacts.

Section RouterClaims.
Import Hrw HrwFacts.
Variable hash32 : string → Z.



End RouterClaims.

(** * Examples

    The theorems at concrete inputs, and the inputs at which the claims
    that had to be amended fail as they were stated. *)

Section StoreExamples.
Import LRUCache StoreInv LRUFacts.

(** Scenario A of the specification: capacity 3; [set] a, b, c; [get] a, b;
    [set] d evicts c; [get] c misses. *)
Example scenario_A :
  ∃ s0 s,
    new 0%nat 3 = inr s0 ∧
    run [OpSet "a" 1; OpSet "b" 2; OpSet "c" 3; OpGet "a"; OpGet "b"]%nat s0
      = Some s ∧
    keys s = ["c"; "a"; "b"] ∧ evicts (OpSet "d" 4%nat) s = Some "c" ∧
    ∃ s', set "d" 4%nat s = Some s' ∧ keys s' = ["a"; "b"; "d"] ∧
          get "c" s' = Some (s', None).
Proof.
  eexists _, _. split; [reflexivity|]. split; [vm_compute; reflexivity|].
  split; [vm_compute; reflexivity|]. split; [vm_compute; reflexivity|].
  eexists. split; [vm_compute; reflexivity|].
  split; vm_compute; reflexivity.
Qed.

Lemma store1_reachable : reachable Demo.store1.
Proof.
  exists 0%nat, 2, Demo.store0, Demo.store_ops. split; vm_compute; reflexivity.
Defined.


(** C4 at the full store [Demo.store1]: [set] of the new key "c" evicts
    "b", which was touched before "a" was. *)
Lemma C4_witness :
  new 0%nat 2 = inr Demo.store0 ∧
  run Demo.store_ops Demo.store0 = Some Demo.store1 ∧
  Z.of_nat (size (cache Demo.store1)) = 2 ∧
  cache Demo.store1 !! "c" = None ∧
  ∃ e s', set "c" 3%nat Demo.store1 = Some s' ∧
    evicts (OpSet "c" 3%nat) Demo.store1 = Some e ∧
    e ∈ dom (cache Demo.store1) ∧
    (∀ k', k' ∈ dom (cache Demo.store1) → k' ≠ e →
           (last_touch Demo.store_ops e < last_touch Demo.store_ops k')%nat) ∧
    dom (cache s') = {["c"]} ∪ (dom (cache Demo.store1) ∖ {[e]}) ∧
    (∀ k', k' ≠ e → k' ≠ "c" → peek k' s' = peek k' Demo.store1) ∧
    peek "c" s' = Some 3%nat ∧
    size (cache s') = size (cache Demo.store1).
Proof.
  assert (new 0%nat 2 = inr Demo.store0) as N by reflexivity.
  assert (run Demo.store_ops Demo.store0 = Some Demo.store1) as R
    by (vm_compute; reflexivity).
  assert (Z.of_nat (size (cache Demo.store1)) = 2) as F
    by (vm_compute; reflexivity).
  assert (cache Demo.store1 !! "c" = None) as A by (vm_compute; reflexivity).
  split; [exact N|]. split; [exact R|]. split; [exact F|]. split; [exact A|].
  exact (proj1 (C4_evicts_least_recently_touched 0%nat 2 Demo.store0
                  Demo.store_ops Demo.store1 N R) F "c" 3%nat A).
Defined.

(** C6 at [Demo.store1] and the resident key "b". *)
Lemma C6_witness :
  reachable Demo.store1 ∧
  (∀ a, cache Demo.store1 !! "b" = Some a →
     ∃ s' v, get "b" Demo.store1 = Some (s', Some v) ∧
       peek "b" Demo.store1 = Some v ∧
       entries s' = Recency.without "b" (entries Demo.store1) ++ [("b", v)] ∧
       cache s' = cache Demo.store1 ∧
       victim s' = hd_error (keys s') ∧
       (∀ k', k' ≠ "b" → is_Some (cache Demo.store1 !! k') →
              victim s' ≠ Some "b")) ∧
  (cache Demo.store1 !! "b" = None → get "b" Demo.store1
                                     = Some (Demo.store1, None)).
Proof.
  split; [exact store1_reachable|].
  exact (C6_get_promotes Demo.store1 "b" store1_reachable).
Defined.

(** The same, computed: "b" was the next key to evict; after [get("b")] it
    is "a". *)
Example get_changes_victim :
  victim Demo.store1 = Some "b" ∧
  ∃ s', get "b" Demo.store1 = Some (s', Some 2%nat) ∧
        keys s' = ["a"; "b"] ∧ victim s' = Some "a".
Proof.
  split; [vm_compute; reflexivity|]. eexists.
  split; [vm_compute; reflexivity|]. split; vm_compute; reflexivity.
Qed.

End StoreExamples.

Section RouterExamples.
Import Hrw.


Example route_tie_keeps_first :
  routeToNode Demo.hash "key" Demo.route_nodes 1 = inr "n3" ∧
  score Demo.hash "key" 1 "n3" = 548%Q ∧
  general Demo.hash "key" "n1" [] 1 = "n1".
Proof. by vm_compute. Qed.


End RouterExamples.

Section CacheExamples.
Import Cache CacheInv CacheFacts.

Local Abbreviation reachable := (CacheInv.reachable Demo.blank).
Local Abbreviation reachable_at := (CacheInv.reachable_at Demo.blank).
Local Abbreviation peek k c := (LRUCache.peek k (lruCache c)).

Lemma cache0_new : new Demo.blank 2 5000 = inr Demo.cache0.
Proof. reflexivity. Defined.

Lemma after_reachable evs :
  run evs Demo.cache0 = Some (Demo.after evs Demo.cache0,
                              Demo.results evs Demo.cache0) →
  reachable (Demo.after evs Demo.cache0).
Proof.
  intros R. exists 2, 5000, Demo.cache0, evs, (Demo.results evs Demo.cache0).
  split; [exact cache0_new|exact R].
Defined.

(** Scenario B of the specification: TTL 5000; [get(k)] at 0 fetches and
    caches; [get(k)] at 4000 hits; [get(k)] at 6000 fetches again. *)
Example scenario_B :
  ∃ c1 c2 c3 rs,
    run Demo.fetched Demo.cache0 = Some (c1, rs) ∧
    fetcherCalls c1 = ["k"] ∧ peek "k" c1 = Some (mkEntry 7%nat 0) ∧
    get 4000 "k" c1 = Some (c2, Returned 7%nat) ∧ fetcherCalls c2 = ["k"] ∧
    get 6000 "k" c2 = Some (c3, Chained 1) ∧ fetcherCalls c3 = ["k"; "k"].
Proof.
  eexists _, _, _, _. split; [vm_compute; reflexivity|].
  split; [reflexivity|]. split; [vm_compute; reflexivity|].
  split; [vm_compute; reflexivity|]. split; [reflexivity|].
  split; [vm_compute; reflexivity|reflexivity].
Qed.

(** Scenario C of the specification: three calls [get("x")] before the
    fetch settles call the fetcher once and share one promise. *)
Example scenario_C :
  ∃ c rs,
    run [EvGet 0 "x"; EvGet 0 "x"; EvGet 0 "x"] Demo.cache0 = Some (c, rs) ∧
    fetcherCalls c = ["x"] ∧ chained_to "x" rs = [0; 0; 0]%nat ∧
    promises c = [Pending "x"].
Proof.
  eexists _, _. split; [vm_compute; reflexivity|]. by vm_compute.
Qed.

(** C1 at the events [Demo.herd], from the new cache. *)
Lemma C1_witness :
  reachable Demo.cache0 ∧
  inFlightRequests Demo.cache0 !! "x" = None ∧
  unsettled "x" Demo.herd Demo.cache0 ∧
  ∃ c' rs, run Demo.herd Demo.cache0 = Some (c', rs) ∧
    (calls_for "x" c' =
       calls_for "x" Demo.cache0 +
       match chained_to "x" rs with [] => 0 | _ => 1 end)%nat ∧
    (∃ p, chained_to "x" rs = replicate (length (chained_to "x" rs)) p ∧
          (chained_to "x" rs ≠ [] →
             promises c' !! p = Some (Pending "x") ∧
             inFlightRequests c' !! "x" = Some p ∧
             ∀ now r, ∃ c1, settle now p r c' = Some c1 ∧
               ∀ evs2 c2 rs2, run evs2 c1 = Some (c2, rs2) →
                 promises c2 !! p = Some (outcome r))) ∧
    (∀ T, absent_or_stale T "x" Demo.cache0 → monotone T Demo.herd →
          length (chained_to "x" rs) = gets_of "x" Demo.herd) ∧
    (∀ k' p1 p2, promises c' !! p1 = Some (Pending k') →
                 promises c' !! p2 = Some (Pending k') → p1 = p2).
Proof.
  assert (reachable Demo.cache0) as H1.
  { exists 2, 5000, Demo.cache0, [], []. split; reflexivity. }
  assert (inFlightRequests Demo.cache0 !! "x" = None) as H2 by reflexivity.
  assert (unsettled "x" Demo.herd Demo.cache0) as H3.
  { vm_compute. repeat split. exists "y". split; [reflexivity|discriminate]. }
  split; [exact H1|]. split; [exact H2|]. split; [exact H3|].
  exact (C1_single_flight Demo.blank Demo.cache0 "x" Demo.herd H1 H2 H3).
Defined.

Example herd_computed :
  calls_for "x" (Demo.after Demo.herd Demo.cache0) = 1%nat ∧
  chained_to "x" (Demo.results Demo.herd Demo.cache0) = [0; 0; 0]%nat ∧
  gets_of "x" Demo.herd = 3%nat.
Proof. by vm_compute. Qed.



Lemma two_keys_reachable : reachable (Demo.after Demo.two_keys Demo.cache0).
Proof. apply after_reachable. vm_compute. reflexivity. Defined.




Example retry_after_failure :
  ∃ c1 c2,
    settle 10 0 (inr "boom") (Demo.after [EvGet 0 "k"] Demo.cache0)
      = Some c1 ∧
    get 20 "k" c1 = Some (c2, Chained 1) ∧ fetcherCalls c2 = ["k"; "k"] ∧
    promises c2 = [Rejected "boom"; Pending "k"].
Proof.
  eexists _, _. split; [vm_compute; reflexivity|].
  split; [vm_compute; reflexivity|]. by vm_compute.
Qed.

(** C8 at the entry of "a", written at time 0, read at time 6000. *)
Lemma C8_witness :
  reachable (Demo.after Demo.two_keys Demo.cache0) ∧
  (LRUCache.cache (lruCache (Demo.after Demo.two_keys Demo.cache0)) !! "z"
     = None →
   get 6000 "z" (Demo.after Demo.two_keys Demo.cache0)
     = Some (join_or_fetch "z" (Demo.after Demo.two_keys Demo.cache0))) ∧
  ∃ lru,
    get 6000 "a" (Demo.after Demo.two_keys Demo.cache0) =
      Some (join_or_fetch "a"
              (mk lru
                 (maxDuration (Demo.after Demo.two_keys Demo.cache0))
                 (inFlightRequests (Demo.after Demo.two_keys Demo.cache0))
                 (promises (Demo.after Demo.two_keys Demo.cache0))
                 (fetcherCalls (Demo.after Demo.two_keys Demo.cache0)))) ∧
    LRUCache.cache lru
      = LRUCache.cache (lruCache (Demo.after Demo.two_keys Demo.cache0)) ∧
    (∀ k', LRUCache.peek k' lru
           = peek k' (Demo.after Demo.two_keys Demo.cache0)) ∧
    LRUCache.entries lru =
      Recency.without "a"
        (LRUCache.entries (lruCache (Demo.after Demo.two_keys Demo.cache0)))
      ++ [("a", mkEntry 1%nat 0)].
Proof.
  split; [exact two_keys_reachable|]. split.
  - exact (proj1 (C8_stale_entry Demo.blank _ "z" 6000 two_keys_reachable)).
  - apply (proj2 (C8_stale_entry Demo.blank _ "a" 6000 two_keys_reachable)).
    + vm_compute. reflexivity.
    + vm_compute. discriminate.
Defined.

(** C8 as it was stated fails: with "a" and "b" stored in this order, a
    [get("a")] that finds the entry stale moves "a" behind "b", while a
    [get] of an absent key leaves the order of the store as it is; the next
    key to evict is then "b" and no longer "a". *)
Lemma C8_counterexample :
  ¬ (∀ (c : t nat string) k e now c' r,
       reachable c → peek k c = Some e →
       timestamp e + maxDuration c <= now →
       get now k c = Some (c', r) →
       LRUCache.keys (lruCache c') = LRUCache.keys (lruCache c) ∧
       LRUCache.victim (lruCache c') = LRUCache.victim (lruCache c)).
Proof.
  intros H.
  specialize (H (Demo.after Demo.two_keys Demo.cache0) "a"
                (mkEntry 1%nat 0) 6000
                (Demo.after (Demo.two_keys ++ [EvGet 6000 "a"]) Demo.cache0)
                (Chained 2) two_keys_reachable).
  vm_compute in H. specialize (H eq_refl).
  destruct H as [A _]; [discriminate|reflexivity|discriminate A].
Qed.

Example stale_get_reorders :
  LRUCache.keys (lruCache (Demo.after Demo.two_keys Demo.cache0))
    = ["a"; "b"] ∧
  LRUCache.keys
    (lruCache (Demo.after (Demo.two_keys ++ [EvGet 6000 "a"]) Demo.cache0))
    = ["b"; "a"] ∧
  LRUCache.keys
    (lruCache (Demo.after (Demo.two_keys ++ [EvGet 6000 "z"]) Demo.cache0))
    = ["a"; "b"].
Proof. by vm_compute. Qed.

(** C9 at the capacities 0 and 3. *)
Lemma C9_witness :
  (0 <= 0 ∧
   LRUCache.new Demo.blank 0
     = inl (LRUCache.Err "Capacity must be greater than 0") ∧
   new (E := string) Demo.blank 0 5000
     = inl (LRUCache.Err "Capacity must be greater than 0")) ∧
  (0 < 3 ∧
   ∃ lru c,
     LRUCache.new Demo.blank 3 = inr lru ∧
     LRUCache.capacity lru = 3 ∧ LRUCache.cache lru = ∅ ∧
     LRUCache.entries lru = [] ∧
     new (E := string) Demo.blank 3 5000 = inr c ∧
     c = mk lru 5000 ∅ [] []).
Proof.
  assert (0 <= 0) as H0 by lia. assert (0 < 3) as H3 by lia.
  split; (split; [assumption|]).
  - exact (proj1 (C9_capacity_checked (E := string) Demo.blank 0 5000) H0).
  - exact (proj2 (C9_capacity_checked (E := string) Demo.blank 3 5000) H3).
Defined.

End CacheExamples.

(** * More about the router *)

Module HrwMore.
Import Hrw HrwFacts.

Section Router.
Variable hash32 : string → Z.
Implicit Types (key node n m : string) (nodes rest : list string) (w : Q).

Local Abbreviation score := (Hrw.score hash32).
Local Abbreviation routeToNode := (Hrw.routeToNode hash32).
Local Abbreviation first_max := (Hrw.first_max hash32).

Lemma route_cons key w n0 rest :
  routeToNode key (n0 :: rest) w = inr (general hash32 key n0 rest w).
Proof. by destruct rest. Qed.

Lemma route_first_max_1 key w nodes n :
  routeToNode key nodes w = inr n → first_max key w nodes n.
Proof.
  destruct nodes as [|n0 rest]; [done|]. rewrite route_cons. intros [= <-].
  destruct (scan_max hash32 key w rest [n0] n0 0%nat)
    as (i & n & Hi & Hn & Hle & Hlt).
  - done.
  - intros j m Hj. apply list_lookup_singleton_Some in Hj as [_ <-].
    apply Qle_refl.
  - intros j m _ Hj. lia.
  - unfold general. simpl. rewrite Hn. simpl in Hi.
    exists (take i (n0 :: rest)), (drop (S i) (n0 :: rest)). split_and!.
    + by rewrite take_drop_middle.
    + apply Forall_forall. intros m Hm.
      apply list_elem_of_lookup in Hm as [j Hj].
      pose proof (lookup_lt_Some _ _ _ Hj) as Hl.
      rewrite length_take in Hl. rewrite lookup_take_lt in Hj by lia.
      eapply Hlt; [done|lia].
    + apply Forall_forall. intros m Hm.
      apply list_elem_of_lookup in Hm as [j Hj].
      rewrite lookup_drop in Hj. by eapply Hle.
Qed.

Lemma first_max_unique key w nodes n n' :
  first_max key w nodes n → first_max key w nodes n' → n = n'.
Proof.
  intros (l1 & l2 & E & Hlt & Hle) (l1' & l2' & E' & Hlt' & Hle').
  rewrite Forall_forall in Hlt, Hle, Hlt', Hle'.
  assert (nodes !! length l1 = Some n) as Hn.
  { rewrite E. by apply list_lookup_middle. }
  assert (nodes !! length l1' = Some n') as Hn'.
  { rewrite E'. by apply list_lookup_middle. }
  destruct (lt_eq_lt_dec (length l1) (length l1')) as [[Hl|Hl]|Hl].
  - exfalso. assert (n ∈ l1') as Hin.
    { rewrite E', lookup_app_l in Hn by done.
      by eapply list_elem_of_lookup_2. }
    assert (n' ∈ l2) as Hin'.
    { rewrite E, lookup_app_r in Hn' by lia.
      destruct (length l1' - length l1)%nat as [|d] eqn:Ed; [lia|].
      simpl in Hn'. by eapply list_elem_of_lookup_2. }
    apply Hlt' in Hin. apply Hle in Hin'.
    by apply Qlt_not_le in Hin.
  - rewrite Hl in Hn. congruence.
  - exfalso. assert (n' ∈ l1) as Hin.
    { rewrite E, lookup_app_l in Hn' by done.
      by eapply list_elem_of_lookup_2. }
    assert (n ∈ l2') as Hin'.
    { rewrite E', lookup_app_r in Hn by lia.
      destruct (length l1 - length l1')%nat as [|d] eqn:Ed; [lia|].
      simpl in Hn. by eapply list_elem_of_lookup_2. }
    apply Hlt in Hin. apply Hle' in Hin'.
    by apply Qlt_not_le in Hin.
Qed.

Lemma route_first_max key w nodes n :
  routeToNode key nodes w = inr n ↔ first_max key w nodes n.
Proof.
  split; [apply route_first_max_1|]. intros Hf.
  destruct nodes as [|n0 rest].
  { destruct Hf as (l1 & l2 & E & _). by destruct l1. }
  rewrite route_cons. f_equal.
  eapply first_max_unique; [|done].
  apply route_first_max_1. by rewrite route_cons.
Qed.

(** *** [testRouting] *)

Lemma total_comm (z1 z2 : num) (y : Z) :
  match z1 with
  | Num z => z + match z2 with Num z' => z' + y | NaN => y end
  | NaN => match z2 with Num z' => z' + y | NaN => y end
  end =
  match z2 with
  | Num z' => z' + match z1 with Num z => z + y | NaN => y end
  | NaN => match z1 with Num z => z + y | NaN => y end
  end.
Proof. destruct z1, z2; lia. Qed.

Lemma total_insert_new (d : gmap string num) node z :
  d !! node = None → total (<[node := Num z]> d) = z + total d.
Proof.
  intros H. unfold total. rewrite map_fold_insert_L; [done| |done].
  intros. apply total_comm.
Qed.

Lemma total_insert_old (d : gmap string num) node z z' :
  d !! node = Some (Num z) →
  total (<[node := Num z']> d) = z' - z + total d.
Proof.
  intros H. rewrite <- insert_delete_eq.
  rewrite total_insert_new by apply lookup_delete_eq.
  unfold total.
  rewrite (map_fold_delete_L _ _ node (Num z) d); [simpl; lia| |done].
  intros. apply total_comm.
Qed.

Lemma init_lookup nodes (d : gmap string num) node :
  foldl (λ d node, <[node := Num 0]> d) d nodes !! node =
  if decide (node ∈ nodes) then Some (Num 0) else d !! node.
Proof.
  revert d. induction nodes as [|n nodes IH]; intros d; cbn [foldl].
  - by rewrite decide_False by set_solver.
  - rewrite IH. destruct (decide (node ∈ nodes)).
    + by rewrite decide_True by set_solver.
    + rewrite lookup_insert. destruct (decide (n = node)) as [->|].
      * by rewrite decide_True by set_solver.
      * by rewrite decide_False by set_solver.
Qed.

Lemma init_total nodes (d : gmap string num) :
  (∀ node c, d !! node = Some c → c = Num 0) →
  total (foldl (λ d node, <[node := Num 0]> d) d nodes) = total d.
Proof.
  revert d. induction nodes as [|n nodes IH]; intros d Hd; simpl; [done|].
  rewrite IH.
  - destruct (d !! n) as [c|] eqn:E.
    + rewrite (Hd n c E) in E. rewrite (total_insert_old _ _ 0) by done. lia.
    + by rewrite total_insert_new.
  - intros node c. rewrite lookup_insert. case_decide; [congruence|].
    apply Hd.
Qed.

Lemma routed_to_snoc keys key nodes node :
  routed_to hash32 (keys ++ [key]) nodes node =
  routed_to hash32 keys nodes node ++
  (if selects hash32 key nodes node then [key] else []).
Proof.
  unfold routed_to. rewrite filter_app. f_equal.
  rewrite filter_cons. by destruct (selects _ _ _ _).
Qed.

Lemma testRouting_counts keys nodes :
  nodes ≠ [] →
  ∃ d, testRouting hash32 keys nodes = inr d ∧
    (∀ node, d !! node =
       if decide (node ∈ nodes)
       then Some (Num (Z.of_nat (length (routed_to hash32 keys nodes node))))
       else None) ∧
    total d = Z.of_nat (length keys).
Proof.
  intros Hne. unfold testRouting.
  induction keys as [|key keys IH] using rev_ind.
  - eexists. split; [done|]. split.
    + intros node. rewrite init_lookup. by case_decide.
    + by rewrite init_total.
  - destruct IH as (d & E & Hd & Ht). rewrite foldl_snoc, E.
    destruct (Hrw.routeToNode hash32 key nodes 1) as [e|sel] eqn:R.
    { by destruct nodes as [|? [|? ?]]. }
    assert (sel ∈ nodes) as Hsel.
    { apply route_first_max_1 in R as (l1 & l2 & -> & _). set_solver. }
    eexists. split; [done|]. unfold incr.
    pose proof (Hd sel) as Hs. rewrite decide_True in Hs by done.
    rewrite Hs. split.
    + intros node. rewrite lookup_insert, routed_to_snoc, length_app.
      unfold selects. rewrite R. destruct (decide (sel = node)) as [->|Hn].
      * rewrite decide_True by done. rewrite bool_decide_true by done.
        simpl. do 2 f_equal. lia.
      * rewrite Hd. case_decide; [|done].
        rewrite bool_decide_false by done. simpl. do 2 f_equal. lia.
    + rewrite (total_insert_old _ _ _ _ Hs), length_app. simpl. lia.
Qed.

End Router.

End HrwMore.

Section RouterExtras.
Import Hrw HrwFacts HrwMore.
Variable hash32 : string → Z.

(** X1. [routeToNode] fails exactly on the empty list, and what it returns
    is one of the nodes it was given. *)
Theorem X1_route_member (key : string) (nodes : list string) (w : Q) :
  match routeToNode hash32 key nodes w with
  | inl _ => nodes = []
  | inr n => n ∈ nodes
  end.
Proof.
  destruct (routeToNode hash32 key nodes w) as [e|n] eqn:R.
  - by destruct nodes as [|? [|? ?]].
  - apply route_first_max_1 in R as (l1 & l2 & -> & _). set_solver.
Qed.

(** X2. Taking a node that is not the selected one out of the list (all its
    occurrences) does not change the selection for the key. *)
Theorem X2_remove_other_node (key : string) (nodes : list string) (w : Q)
    (n m : string) :
  routeToNode hash32 key nodes w = inr n → m ≠ n →
  routeToNode hash32 key (filter (λ x, x ≠ m) nodes) w = inr n.
Proof.
  intros (l1 & l2 & -> & Hlt & Hle)%route_first_max_1 Hne.
  apply route_first_max.
  exists (filter (λ x, x ≠ m) l1), (filter (λ x, x ≠ m) l2). split_and!.
  - rewrite filter_app, filter_cons_True by done. done.
  - rewrite Forall_forall in Hlt |- *.
    intros x [_ Hx]%list_elem_of_filter. by apply Hlt.
  - rewrite Forall_forall in Hle |- *.
    intros x [_ Hx]%list_elem_of_filter. by apply Hle.
Qed.

(** X3. When a node is added at the end of the list, the selection for a
    key moves to the new node if its score is strictly higher than that of
    the node selected before, and stays where it was otherwise. *)
Theorem X3_add_node (key : string) (nodes : list string) (w : Q)
    (n m : string) :
  routeToNode hash32 key nodes w = inr n →
  routeToNode hash32 key (nodes ++ [m]) w =
    inr (if Qlt_le_dec (score hash32 key w n) (score hash32 key w m)
         then m else n).
Proof.
  intros (l1 & l2 & -> & Hlt & Hle)%route_first_max_1.
  apply route_first_max. destruct (Qlt_le_dec _ _) as [Lt|Le].
  - exists (l1 ++ n :: l2), []. split_and!; [done| |done].
    rewrite Forall_forall in Hlt, Hle |- *. intros x Hx.
    apply elem_of_app in Hx as [Hx|Hx].
    + eapply Qlt_trans; [by apply Hlt|done].
    + apply elem_of_cons in Hx as [->|Hx]; [done|].
      eapply Qle_lt_trans; [by apply Hle|done].
  - exists l1, (l2 ++ [m]). split_and!; [by rewrite <- app_assoc|done|].
    apply Forall_app. split; [done|]. by constructor.
Qed.

(** X4. If different nodes have different scores for the key, the
    selection does not depend on the order of the list. *)
Theorem X4_order_irrelevant (key : string) (nodes nodes' : list string)
    (w : Q) :
  (∀ a b, a ∈ nodes → b ∈ nodes →
          (score hash32 key w a == score hash32 key w b)%Q → a = b) →
  nodes ≡ₚ nodes' →
  routeToNode hash32 key nodes' w = routeToNode hash32 key nodes w.
Proof.
  intros Hinj Hp.
  destruct (routeToNode hash32 key nodes w) as [e|n] eqn:R.
  - assert (nodes = []) as -> by (by destruct nodes as [|? [|? ?]]).
    apply Permutation_nil in Hp. by subst nodes'.
  - apply route_first_max_1 in R as (l1 & l2 & E & Hlt & Hle).
    assert (∀ x, x ∈ nodes → (score hash32 key w x <= score hash32 key w n)%Q)
      as Hall.
    { rewrite Forall_forall in Hlt, Hle. intros x Hx. rewrite E in Hx.
      apply elem_of_app in Hx as [Hx|Hx].
      - by apply Qlt_le_weak, Hlt.
      - apply elem_of_cons in Hx as [->|Hx]; [apply Qle_refl|by apply Hle]. }
    assert (n ∈ nodes) as Hn by (rewrite E; set_solver).
    assert (n ∈ nodes') as Hn' by (by rewrite <- Hp).
    apply list_elem_of_split_l in Hn' as (l1' & l2' & E' & Hfirst).
    apply route_first_max. exists l1', l2'. split; [done|].
    assert (∀ x, x ∈ nodes' → x ∈ nodes) as Hsub.
    { intros x Hx. by rewrite Hp. }
    split; apply Forall_forall; intros x Hx.
    + assert (x ∈ nodes) as Hx' by (apply Hsub; rewrite E'; set_solver).
      destruct (proj1 (Qle_lteq _ _) (Hall x Hx')) as [?|Heq]; [done|].
      apply Hinj in Heq; [|done..]. by subst x.
    + apply Hall, Hsub. rewrite E'. set_solver.
Qed.

(** X5. With the weight 0 all scores are 0, and every key is sent to the
    first node of the list. *)
Theorem X5_weight_zero (key : string) (node0 : string) (rest : list string) :
  routeToNode hash32 key (node0 :: rest) 0 = inr node0.
Proof.
  apply route_first_max. exists [], rest. split_and!; [done|done|].
  apply Forall_forall. intros x _. unfold score.
  rewrite !Qmult_0_r. apply Qle_refl.
Qed.

End RouterExtras.

Section TestRoutingExtras.
Import Hrw HrwFacts HrwMore.
Variable hash32 : string → Z.

(** X6. [testRouting] with no nodes throws as soon as there is a key, and
    returns the empty object if there is none.  With nodes (none of them
    named ["__proto__"]) it returns an object with exactly the nodes as
    properties; the count of a node is the number of keys [routeToNode]
    sends to it, never [NaN]; and the counts add up to the number of
    keys. *)
Theorem X6_testRouting_counts (keys nodes : list string) :
  match nodes with
  | [] =>
      testRouting hash32 keys nodes =
      match keys with
      | [] => inr ∅
      | _ => inl (Err "No nodes available for routing")
      end
  | _ =>
      "__proto__" ∉ nodes →
      ∃ d, testRouting hash32 keys nodes = inr d ∧
        dom d = list_to_set nodes ∧
        (∀ node, node ∈ nodes →
           d !! node =
           Some (Num (Z.of_nat (length (routed_to hash32 keys nodes node))))) ∧
        total d = Z.of_nat (length keys)
  end.
Proof.
  destruct nodes as [|n0 rest].
  - destruct keys as [|key keys]; [done|]. unfold testRouting. simpl.
    by induction keys.
  - intros _.
    destruct (testRouting_counts hash32 keys (n0 :: rest)) as (d & R & Hd & Ht);
      [done|].
    exists d. split_and!; try done.
    + apply set_eq. intros node.
      rewrite elem_of_dom, elem_of_list_to_set, Hd.
      case_decide; [by split; eauto|]. split; [by intros [? ?]|done].
    + intros node Hn. by rewrite Hd, decide_True.
Qed.

End TestRoutingExtras.

(** * More about the store *)

Module StoreMore.
Import LRUCache StoreInv LRUFacts.

Section StoreMore.
Context {V : Type}.
Implicit Types (h : Heap V) (s : t V) (l : list (string * V)) (k : string).
Implicit Types (ns : list nat).

(** The walk along [prev] finds the nodes of the list in reverse. *)
Lemma walk_bwds h hd fuel ns : ∀ b r,
  bwds h (hd :: ns) → NoDup (hd :: ns) → (length ns ≤ fuel)%nat →
  hd :: ns = r ++ [b] → walk_back fuel h hd b = rev ns.
Proof.
  revert fuel. induction ns as [|c ns IH] using rev_ind;
    intros fuel b r B ND Hf E.
  - destruct r as [|? [|? ?]]; simplify_eq/=.
    destruct fuel; simpl; [done|]. by rewrite decide_True.
  - rewrite app_comm_cons in E. apply app_inj_tail in E as [<- <-].
    rewrite length_app in Hf. simpl in Hf.
    destruct fuel as [|fuel]; [lia|]. simpl.
    rewrite app_comm_cons in ND. apply NoDup_app in ND as (ND1 & ND2 & _).
    rewrite decide_False.
    2:{ intros ->. apply (ND2 hd); set_solver. }
    destruct (snoc_view hd ns) as (r' & b' & E').
    rewrite app_comm_cons, E' in B. rewrite <- app_assoc in B. simpl in B.
    apply bwds_app in B as [B1 B2]. apply bwds_cons in B2 as [-> _].
    rewrite rev_unit. f_equal.
    apply (IH fuel b' r'); [by rewrite E'|done|lia|done].
Qed.

Lemma nodes_back_Linked h hd tl ns :
  Linked h hd tl ns →
  match prv h tl with
  | Some a => walk_back (length h) h hd a
  | None => []
  end = rev ns.
Proof.
  intros [ND F B Va].
  destruct (snoc_view hd ns) as (r & b & E).
  pose proof B as B'. rewrite app_comm_cons, E, <- app_assoc in B'.
  simpl in B'. apply bwds_app in B' as [B1 B2].
  apply bwds_cons in B2 as [-> _].
  assert (length (hd :: ns ++ [tl]) ≤ length h)%nat as Hl.
  { apply NoDup_bounded; [done|].
    intros x Hx. destruct (Va x Hx) as [? Hn]. by eapply lookup_lt_Some. }
  simpl in Hl. rewrite length_app in Hl. simpl in Hl.
  rewrite app_comm_cons in ND. apply NoDup_app in ND as (ND & _ & _).
  apply (walk_bwds h hd (length h) ns b r); [by rewrite E|done|lia|done].
Qed.

Lemma reachable_step s o s' :
  reachable s → step o s = Some s' → reachable s'.
Proof.
  intros (blank & c & s0 & ops & N & R) St.
  exists blank, c, s0, (ops ++ [o]). split; [done|].
  rewrite run_app, R. simpl. by rewrite St.
Qed.

Lemma in_entries_assoc l k v :
  NoDup l.*1 → (k, v) ∈ l ↔ Recency.assoc k l = Some v.
Proof.
  induction l as [|[k' v'] l IH]; simpl; [set_solver|].
  intros [Hk' ND]%NoDup_cons. rewrite elem_of_cons, (IH ND).
  case_decide as D.
  - subst k'. split.
    + intros [[= ->]|Ha]; [done|].
      exfalso. apply Hk'. apply assoc_is_None in Hk'. congruence.
    + intros [= ->]. by left.
  - split; [|by right]. intros [[= -> ->]|Ha]; done.
Qed.

(** What [set] makes of the list: the entries it keeps, none of them for
    [k], followed by the new entry. *)
Lemma set_shape c k l :
  ∃ pre, (k ∉ pre.*1) ∧ ∀ v, Recency.set c k v l = pre ++ [(k, v)].
Proof.
  unfold Recency.set. destruct (Recency.assoc k l) as [v0|] eqn:E.
  - exists (Recency.without k l). split; [|done].
    rewrite keys_without. intros H%list_elem_of_filter. tauto.
  - apply assoc_is_None in E. destruct (_ >=? _).
    + exists (tl l). split; [|done]. destruct l; simpl in *; set_solver.
    + by exists l.
Qed.

Lemma get_after_set c k v l :
  Recency.get k (Recency.set c k v l) = (Recency.set c k v l, Some v).
Proof.
  destruct (set_shape c k l) as (pre & Hk & E). rewrite E.
  unfold Recency.get. rewrite assoc_split, without_split by (done || set_solver).
  by rewrite app_nil_r.
Qed.

Lemma set_after_set c k v1 v2 l :
  Recency.set c k v2 (Recency.set c k v1 l) = Recency.set c k v2 l.
Proof.
  destruct (set_shape c k l) as (pre & Hk & E). rewrite !E.
  unfold Recency.set at 1.
  rewrite assoc_split, without_split by (done || set_solver).
  by rewrite app_nil_r.
Qed.

Lemma get_after_get k l :
  Recency.get k (Recency.get k l).1 =
  ((Recency.get k l).1, (Recency.get k l).2).
Proof.
  unfold Recency.get at 2 3 4. destruct (Recency.assoc k l) as [v|] eqn:E;
    simpl.
  - unfold Recency.get.
    assert (k ∉ (Recency.without k l).*1) as Hk.
    { rewrite keys_without. intros H%list_elem_of_filter. tauto. }
    rewrite assoc_split, without_split by (done || set_solver).
    by rewrite app_nil_r.
  - unfold Recency.get. by rewrite E.
Qed.

End StoreMore.

End StoreMore.

Section StoreExtras.
Import LRUCache StoreInv LRUFacts StoreMore.
Context {V : Type}.
Implicit Types (s : t V) (k : string).

(** X7. On every store the constructor and the operations produce, [get]
    and [set] run to the end: no [prev] or [next] they follow is [null].
    [get] returns the value the map holds for the key, [undefined] if it
    holds none. *)
Theorem X7_operations_safe s k (v : V) :
  reachable s →
  (∃ s', get k s = Some (s', peek k s) ∧ reachable s') ∧
  (∃ s', set k v s = Some s' ∧ reachable s').
Proof.
  intros Hr. pose proof (reachable_wf _ Hr) as W. split.
  - destruct (get_wf s k W) as (s' & G & _). exists s'. split; [done|].
    apply (reachable_step s (OpGet k)); [done|]. simpl. by rewrite G.
  - destruct (set_wf s k v W) as (s' & St & _). exists s'. split; [done|].
    by apply (reachable_step s (OpSet k v)).
Qed.

(** X8. The two directions of the list agree: following [prev] from [tail]
    to [head] meets the nodes that following [next] from [head] to [tail]
    meets, in the opposite order. *)
Theorem X8_prev_mirrors_next s :
  reachable s → nodes_back s = rev (nodes s).
Proof.
  intros (ns & l & R)%reachable_wf. rewrite (Rep_nodes _ _ _ R).
  apply nodes_back_Linked, R.
Qed.

(** X9. The map and the list hold the same entries: the keys of the list
    are pairwise different, they are the keys of the map, there are as many
    of them as the map has entries, and the map sends a key to the node
    with the value the list has for it. *)
Theorem X9_map_agrees_with_list s :
  reachable s →
  NoDup (keys s) ∧
  dom (cache s) = list_to_set (keys s) ∧
  size (cache s) = length (keys s) ∧
  ∀ k v, peek k s = Some v ↔ (k, v) ∈ entries s.
Proof.
  intros (ns & l & R)%reachable_wf. unfold keys.
  rewrite (Rep_entries _ _ _ R). pose proof (Rep_NoDup _ _ _ R) as ND.
  split_and!; [done|by eapply Rep_dom| |].
  - by rewrite (Rep_size _ _ _ R), length_fmap.
  - intros k v. rewrite (Rep_peek _ _ _ _ R). symmetry.
    by apply in_entries_assoc.
Qed.

(** X10. After [set(k, v)] the key is the most recently used one, and a
    [get(k)] returns [v] and leaves the order of the list as it is. *)
Theorem X10_set_then_get s k (v : V) :
  reachable s →
  ∃ s' s'', set k v s = Some s' ∧ last (keys s') = Some k ∧
            get k s' = Some (s'', Some v) ∧ entries s'' = entries s'.
Proof.
  intros (ns & l & R)%reachable_wf.
  destruct (set_Rep _ _ _ k v R) as (s' & ns' & St & R' & _).
  destruct (get_Rep _ _ _ k R') as (s'' & ns'' & G & R'' & _).
  rewrite get_after_set in G, R''. simpl in G, R''.
  exists s', s''. split_and!; try done.
  - unfold keys. rewrite (Rep_entries _ _ _ R').
    destruct (set_shape (capacity s) k l) as (pre & _ & ->).
    rewrite fmap_app. simpl. by rewrite last_snoc.
  - by rewrite (Rep_entries _ _ _ R'), (Rep_entries _ _ _ R'').
Qed.

(** X11. A second [get] of the same key returns what the first returned
    and leaves the list as the first left it. *)
Theorem X11_get_twice s k s1 (r : option V) :
  reachable s → get k s = Some (s1, r) →
  ∃ s2, get k s1 = Some (s2, r) ∧ entries s2 = entries s1 ∧
        cache s2 = cache s1.
Proof.
  intros (ns & l & R)%reachable_wf G.
  destruct (get_Rep _ _ _ k R) as (s1' & ns1 & G1 & R1 & _).
  rewrite G in G1. injection G1 as <- ->.
  destruct (get_Rep _ _ _ k R1) as (s2 & ns2 & G2 & R2 & M & _).
  rewrite get_after_get in G2, R2. simpl in G2, R2.
  exists s2. split_and!; try done.
  by rewrite (Rep_entries _ _ _ R1), (Rep_entries _ _ _ R2).
Qed.

(** X12. Two [set]s of the same key in a row leave the list as the second
    alone would have left it: the first value is overwritten, and nothing
    more is evicted than by one [set]. *)
Theorem X12_set_twice s k (v1 v2 : V) s1 s2 :
  reachable s → set k v1 s = Some s1 → set k v2 s1 = Some s2 →
  ∃ s2', set k v2 s = Some s2' ∧ entries s2 = entries s2'.
Proof.
  intros (ns & l & R)%reachable_wf St1 St2.
  destruct (set_Rep _ _ _ k v1 R) as (s1' & ns1 & E1 & R1 & C1).
  assert (s1' = s1) as -> by congruence.
  destruct (set_Rep _ _ _ k v2 R1) as (s2_ & ns2 & E2 & R2 & _).
  assert (s2_ = s2) as -> by congruence.
  destruct (set_Rep _ _ _ k v2 R) as (s2' & ns2' & E2' & R2' & _).
  exists s2'. split; [done|].
  rewrite (Rep_entries _ _ _ R2), (Rep_entries _ _ _ R2'), C1.
  apply set_after_set.
Qed.

End StoreExtras.

(** * More about the cache *)

Module CacheMore.
Import Cache CacheInv CacheFacts.

Section CacheMore.
Context {V E : Type} (blank : CacheEntry V).
Implicit Types (c : t V E) (k : string) (p : nat) (now : Z).
Implicit Types (ev : event V E) (evs : list (event V E)).
Implicit Types (rs : list (string * result V)).

Local Abbreviation peek k c := (LRUCache.peek k (lruCache c)).







End CacheMore.

End CacheMore.

Section CacheExtras.
Import Cache CacheInv CacheFacts CacheMore.
Context {V E : Type} (blank : CacheEntry V).
Implicit Types (c : t V E) (k : string) (p : nat) (now : Z).

Local Abbreviation reachable := (CacheInv.reachable blank).
Local Abbreviation peek k c := (LRUCache.peek k (lruCache c)).





End CacheExtras.

(** * More of the code: routing.ts, routingProxy.ts, proxyServer.ts *)

Module RoutingMore.

Import Js Routing.

Lemma toInt32_range z : - 2 ^ 31 ≤ toInt32 z < 2 ^ 31.
Proof.
  unfold toInt32.
  pose proof (Z.mod_pos_bound (z + 2 ^ 31) (2 ^ 32) ltac:(lia)). lia.
Qed.

Lemma toInt32_shift z q : toInt32 (z + 2 ^ 32 * q) = toInt32 z.
Proof.
  unfold toInt32. f_equal.
  replace (z + 2 ^ 32 * q + 2 ^ 31) with (z + 2 ^ 31 + q * 2 ^ 32) by lia.
  apply Z_mod_plus_full.
Qed.

Lemma toInt32_repr z : ∃ q, toInt32 z = z + 2 ^ 32 * q.
Proof.
  exists (- ((z + 2 ^ 31) `div` 2 ^ 32)). unfold toInt32.
  pose proof (Z.div_mod (z + 2 ^ 31) (2 ^ 32) ltac:(lia)). lia.
Qed.

Lemma hash_step h c :
  (let hash := toInt32 (Z.shiftl (toInt32 h) 5) - h + c in
   Z.land (toInt32 hash) (toInt32 hash)) = toInt32 (31 * h + c).
Proof.
  cbv zeta. rewrite Z.land_diag, Z.shiftl_mul_pow2 by lia.
  destruct (toInt32_repr h) as [q1 ->].
  destruct (toInt32_repr ((h + 2 ^ 32 * q1) * 2 ^ 5)) as [q2 ->].
  replace ((h + 2 ^ 32 * q1) * 2 ^ 5 + 2 ^ 32 * q2 - h + c)
    with (31 * h + c + 2 ^ 32 * (q1 * 2 ^ 5 + q2)) by lia.
  apply toInt32_shift.
Qed.

Lemma hashFn_poly31 input : hashFn input = toInt32 (poly31 input).
Proof.
  induction input as [|c input IH] using rev_ind; [done|].
  unfold hashFn, poly31 in *. rewrite !foldl_snoc.
  rewrite hash_step, IH.
  destruct (toInt32_repr (foldl (λ hash char, 31 * hash + char) 0 input))
    as [q ->].
  match goal with |- toInt32 (31 * (?P + _) + _) = _ =>
    replace (31 * (P + 2 ^ 32 * q) + c) with (31 * P + c + 2 ^ 32 * (31 * q))
      by lia end.
  apply toInt32_shift.
Qed.

Lemma scan_first_max key rest : ∀ pre sel post,
  Forall (λ m, hashFn (template key (Some m)) < hashFn (template key (Some sel))) pre →
  Forall (λ m, hashFn (template key (Some m)) ≤ hashFn (template key (Some sel))) post →
  ∃ l1 n l2,
    pre ++ sel :: post ++ rest = l1 ++ n :: l2 ∧
    (scan key rest (Some sel) (hashFn (template key (Some sel)))).1 = Some n ∧
    Forall (λ m, hashFn (template key (Some m)) < hashFn (template key (Some n))) l1 ∧
    Forall (λ m, hashFn (template key (Some m)) ≤ hashFn (template key (Some n))) l2.
Proof.
  induction rest as [|node rest IH]; intros pre sel post Hpre Hpost.
  - exists pre, sel, post. by rewrite app_nil_r.
  - simpl. destruct (Z.ltb_spec (hashFn (template key (Some sel)))
                       (hashFn (template key (Some node)))) as [Hlt|Hle].
    + destruct (IH (pre ++ sel :: post) node []) as (l1 & n & l2 & E & R & H1 & H2).
      * apply Forall_app; split; [|constructor].
        -- eapply Forall_impl; [exact Hpre|]. simpl. lia.
        -- done.
        -- eapply Forall_impl; [exact Hpost|]. simpl. lia.
      * constructor.
      * exists l1, n, l2. split_and!; [|done..].
        rewrite <- E. by rewrite <- !app_assoc.
    + destruct (IH pre sel (post ++ [node])) as (l1 & n & l2 & E & R & H1 & H2).
      * done.
      * apply Forall_app; split; [done|]. by constructor.
      * exists l1, n, l2. split_and!; [|done..].
        rewrite <- E. by rewrite <- !app_assoc.
Qed.

Lemma split_nonempty sep s : split sep s ≠ [].
Proof.
  destruct s as [|c s]; [done|]. simpl.
  case_decide; [done|]. by destruct (split sep s).
Qed.

Lemma split_no_sep sep s : sep ∉ s → split sep s = [s].
Proof.
  induction s as [|c s IH]; [done|]. intros Hn. simpl.
  rewrite decide_False by set_solver.
  rewrite IH by set_solver. done.
Qed.

Lemma split_app_sep sep w s :
  sep ∉ w → split sep (w ++ sep :: s) = w :: split sep s.
Proof.
  induction w as [|c w IH]; intros Hn; simpl.
  - by rewrite decide_True.
  - rewrite decide_False by set_solver. rewrite IH by set_solver. done.
Qed.

Lemma split_join sep parts :
  parts ≠ [] → Forall (λ w, sep ∉ w) parts →
  split sep (join sep parts) = parts.
Proof.
  induction parts as [|w parts IH]; [done|]. intros _ Hall.
  apply Forall_cons in Hall as [Hw Hall].
  destruct parts as [|w' parts].
  - simpl. by apply split_no_sep.
  - change (join sep (w :: w' :: parts)) with (w ++ sep :: join sep (w' :: parts)).
    rewrite split_app_sep by done. f_equal. by apply IH.
Qed.

Lemma join_no_sep c sep parts :
  c ≠ sep → Forall (λ w, c ∉ w) parts → c ∉ join sep parts.
Proof.
  intros Hne. induction parts as [|w parts IH]; intros Hall.
  - simpl. set_solver.
  - apply Forall_cons in Hall as [Hw Hall].
    destruct parts as [|w' parts]; [done|].
    change (join sep (w :: w' :: parts)) with (w ++ sep :: join sep (w' :: parts)).
    specialize (IH Hall). set_solver.
Qed.

Lemma startsWith_app pre s :
  startsWith pre s = true → ∃ rest, s = pre ++ rest.
Proof.
  revert s. induction pre as [|p pre IH]; intros s H.
  - by exists s.
  - destruct s as [|c s]; [done|]. simpl in H.
    apply andb_true_iff in H as [Hc H]. apply bool_decide_eq_true in Hc as ->.
    destruct (IH _ H) as [rest ->]. by exists rest.
Qed.

Lemma parseNodes_prefix rest w ws :
  split 61 rest = w :: ws →
  RoutingProxy.parseNodes (units "--nodes=" ++ rest) =
  Some (trim <$> split 44 w).
Proof.
  intros Hs. unfold RoutingProxy.parseNodes.
  change (units "--nodes=" ++ rest)
    with ([45; 45; 110; 111; 100; 101; 115] ++ 61 :: rest).
  rewrite split_app_sep.
  - by rewrite Hs.
  - rewrite !not_elem_of_cons. split_and!; try done. set_solver.
Qed.

End RoutingMore.

Section RoutingExtras.

Import RoutingMore.

(** X17. [hashFn] of routing.ts is Java's string hash: the polynomial in 31
    of the code units, cut to a signed 32-bit integer; its result lies in
    [-2^31, 2^31), whatever the input. *)
Theorem X17_hashFn_is_int32_poly31 (input : list Z) :
  Routing.hashFn input = Js.toInt32 (Routing.poly31 input) ∧
  - 2 ^ 31 ≤ Routing.hashFn input < 2 ^ 31.
Proof.
  rewrite hashFn_poly31. split; [done|]. apply toInt32_range.
Qed.

(** X18. The [routeToNode] of routing.ts makes no check of its list: on an
    empty list it returns [undefined] for every key (and the list of the
    file is empty); on any other list it returns the first node of the
    greatest [hashFn] score. *)
Theorem X18_legacy_route (nodes : list (list Z)) (key : list Z) :
  (nodes = [] → Routing.routeToNode nodes key = None) ∧
  (nodes ≠ [] →
   ∃ l1 n l2,
     nodes = l1 ++ n :: l2 ∧
     Routing.routeToNode nodes key = Some n ∧
     Forall (λ m, Routing.hashFn (Routing.template key (Some m))
                  < Routing.hashFn (Routing.template key (Some n))) l1 ∧
     Forall (λ m, Routing.hashFn (Routing.template key (Some m))
                  ≤ Routing.hashFn (Routing.template key (Some n))) l2).
Proof.
  split.
  - by intros ->.
  - intros Hne. destruct nodes as [|n0 rest]; [done|].
    unfold Routing.routeToNode. simpl. rewrite drop_0.
    destruct (scan_first_max key rest [] n0 []) as (l1 & n & l2 & E & R & H1 & H2);
      [constructor..|].
    by exists l1, n, l2.
Qed.

(** X19. A [--nodes=] argument never gives an empty node list: the first
    argument that starts with [--nodes=] is parsed without an exception
    into at least one entry (the empty string for [--nodes=]), so the
    check for an empty list cannot stop the server on this path. *)
Theorem X19_nodes_argument_never_empty (args : list (list Z)) (arg : list Z) :
  RoutingProxy.nodesArg args = Some arg →
  Js.startsWith (Js.units "--nodes=") arg = true ∧
  ∃ cacheNodes,
    RoutingProxy.parseNodes arg = Some cacheNodes ∧ cacheNodes ≠ [].
Proof.
  unfold RoutingProxy.nodesArg. intros H.
  destruct (list_find _ args) as [[i a]|] eqn:F; [|done].
  simpl in H. simplify_eq.
  apply list_find_Some in F as (_ & Hs & _). split; [done|].
  destruct (startsWith_app _ _ Hs) as [rest ->].
  destruct (Js.split 61 rest) as [|w ws] eqn:Hw; [by apply split_nonempty in Hw|].
  rewrite (parseNodes_prefix _ _ _ Hw). eexists; split; [done|].
  intros Hnil. apply fmap_nil_inv in Hnil. by apply split_nonempty in Hnil.
Qed.

(** X20. Round trip of the node list: for a list of at least one node, none
    of which holds [=] or [,], the argument [--nodes=] followed by the
    nodes joined with commas is parsed back into the nodes, each trimmed. *)
Theorem X20_nodes_round_trip (nodes : list (list Z)) :
  nodes ≠ [] →
  Forall (λ n, (61 ∉ n) ∧ (44 ∉ n)) nodes →
  RoutingProxy.parseNodes (Js.units "--nodes=" ++ Js.join 44 nodes)
  = Some (Js.trim <$> nodes).
Proof.
  intros Hne Hall.
  rewrite (parseNodes_prefix _ (Js.join 44 nodes) []).
  - rewrite split_join; [done..|].
    eapply Forall_impl; [exact Hall|]. by intros ? [_ ?].
  - apply split_no_sep, join_no_sep; [done|].
    eapply Forall_impl; [exact Hall|]. by intros ? [? _].
Qed.

End RoutingExtras.

Section ProxyExtras.

Import ProxyServer.

(** X21. Of the origin's answers only a 404 is passed on as 404: for a
    three-digit status of the origin's error response the proxy answers
    404 when the status is 404 and 500 otherwise; a refused connection
    (no response, code ECONNREFUSED) is answered with 503. *)
Theorem X21_origin_failure_status
    (status : nat) (code : option string) (message : string) :
  (100 ≤ status < 1000)%nat →
  handler_catch (fetcher_catch (AxiosError (Some status) code message))
  = (if decide (status = 404%nat) then 404%nat else 500%nat) ∧
  handler_catch (fetcher_catch (AxiosError None (Some "ECONNREFUSED") message))
  = 503%nat.
Proof.
  intros Hs. split; [|done].
  assert (forallb (λ n, Nat.eqb
            (handler_catch (fetcher_catch (AxiosError (Some n) None "")))
            (if decide (n = 404%nat) then 404%nat else 500%nat))
            (seq 100 900) = true) as Hall by (vm_compute; reflexivity).
  rewrite forallb_forall in Hall.
  specialize (Hall status). rewrite Nat.eqb_eq in Hall.
  rewrite <- Hall; [done|]. apply in_seq. lia.
Qed.

End ProxyExtras.

(** * The further properties at concrete inputs *)

Section RouterExtrasExamples.
Import Hrw.

(** X2 at the four nodes of the examples: "n3" is selected, "n1" leaves. *)
Lemma X2_witness :
  routeToNode Demo.hash "key" Demo.route_nodes 1 = inr "n3" ∧
  "n1" ≠ "n3" ∧
  routeToNode Demo.hash "key" (filter (λ x, x ≠ "n1") Demo.route_nodes) 1
    = inr "n3".
Proof.
  assert (routeToNode Demo.hash "key" Demo.route_nodes 1 = inr "n3") as H1
    by (vm_compute; reflexivity).
  assert ("n1" ≠ "n3") as H2 by discriminate.
  split; [exact H1|]. split; [exact H2|].
  exact (X2_remove_other_node Demo.hash "key" Demo.route_nodes 1 "n3" "n1"
           H1 H2).
Defined.

(** X3 at the nodes "n1", "n3", to which "n2" is added. *)
Lemma X3_witness :
  routeToNode Demo.hash "key" ["n1"; "n3"] 1 = inr "n3" ∧
  routeToNode Demo.hash "key" (["n1"; "n3"] ++ ["n2"]) 1 =
    inr (if Qlt_le_dec (score Demo.hash "key" 1 "n3")
                       (score Demo.hash "key" 1 "n2")
         then "n2" else "n3").
Proof.
  assert (routeToNode Demo.hash "key" ["n1"; "n3"] 1 = inr "n3") as H1
    by (vm_compute; reflexivity).
  split; [exact H1|].
  exact (X3_add_node Demo.hash "key" ["n1"; "n3"] 1 "n3" "n2" H1).
Defined.

(** X4 at three nodes of different scores, in two orders. *)
Lemma X4_witness :
  (∀ a b, a ∈ ["n1"; "n2"; "n3"] → b ∈ ["n1"; "n2"; "n3"] →
          (score Demo.hash "key" 1 a == score Demo.hash "key" 1 b)%Q →
          a = b) ∧
  ["n1"; "n2"; "n3"] ≡ₚ ["n3"; "n1"; "n2"] ∧
  routeToNode Demo.hash "key" ["n3"; "n1"; "n2"] 1
    = routeToNode Demo.hash "key" ["n1"; "n2"; "n3"] 1.
Proof.
  assert (∀ a b, a ∈ ["n1"; "n2"; "n3"] → b ∈ ["n1"; "n2"; "n3"] →
            (score Demo.hash "key" 1 a == score Demo.hash "key" 1 b)%Q →
            a = b) as H1.
  { intros a b Ha Hb Hq.
    rewrite !elem_of_cons, elem_of_nil in Ha, Hb.
    destruct Ha as [->|[->|[->|[]]]], Hb as [->|[->|[->|[]]]];
      first [reflexivity | vm_compute in Hq; discriminate Hq]. }
  assert (["n1"; "n2"; "n3"] ≡ₚ ["n3"; "n1"; "n2"]) as H2
    by exact (Permutation_app_comm ["n1"; "n2"] ["n3"]).
  split; [exact H1|]. split; [exact H2|].
  exact (X4_order_irrelevant Demo.hash "key" ["n1"; "n2"; "n3"]
           ["n3"; "n1"; "n2"] 1 H1 H2).
Defined.

(** X6 at three keys and the four nodes of the examples. *)
Lemma X6_witness :
  ("__proto__" ∉ Demo.route_nodes) ∧
  ∃ d, testRouting Demo.hash ["a"; "b"; "key"] Demo.route_nodes = inr d ∧
    dom d = list_to_set Demo.route_nodes ∧
    (∀ node, node ∈ Demo.route_nodes →
       d !! node =
       Some (Num (Z.of_nat (length
         (routed_to Demo.hash ["a"; "b"; "key"] Demo.route_nodes node))))) ∧
    total d = Z.of_nat (length ["a"; "b"; "key"]).
Proof.
  assert ("__proto__" ∉ Demo.route_nodes) as H1
    by (apply (bool_decide_unpack _); vm_compute; exact I).
  split; [exact H1|].
  exact (X6_testRouting_counts Demo.hash ["a"; "b"; "key"] Demo.route_nodes H1).
Defined.

End RouterExtrasExamples.

Section StoreExtrasExamples.
Import LRUCache StoreInv.

(** X7 at the full store of the examples. *)
Lemma X7_witness :
  reachable Demo.store1 ∧
  (∃ s', get "a" Demo.store1 = Some (s', peek "a" Demo.store1) ∧
         reachable s') ∧
  (∃ s', set "a" 3%nat Demo.store1 = Some s' ∧ reachable s').
Proof.
  split; [exact store1_reachable|].
  exact (X7_operations_safe Demo.store1 "a" 3%nat store1_reachable).
Defined.

(** X8 at the full store of the examples. *)
Lemma X8_witness :
  reachable Demo.store1 ∧ nodes_back Demo.store1 = rev (nodes Demo.store1).
Proof.
  split; [exact store1_reachable|].
  exact (X8_prev_mirrors_next Demo.store1 store1_reachable).
Defined.

(** X9 at the full store of the examples. *)
Lemma X9_witness :
  reachable Demo.store1 ∧
  NoDup (keys Demo.store1) ∧
  dom (cache Demo.store1) = list_to_set (keys Demo.store1) ∧
  size (cache Demo.store1) = length (keys Demo.store1) ∧
  ∀ k v, peek k Demo.store1 = Some v ↔ (k, v) ∈ entries Demo.store1.
Proof.
  split; [exact store1_reachable|].
  exact (X9_map_agrees_with_list Demo.store1 store1_reachable).
Defined.

(** X10 at the full store of the examples and a new key. *)
Lemma X10_witness :
  reachable Demo.store1 ∧
  ∃ s' s'', set "c" 3%nat Demo.store1 = Some s' ∧ last (keys s') = Some "c" ∧
            get "c" s' = Some (s'', Some 3%nat) ∧ entries s'' = entries s'.
Proof.
  split; [exact store1_reachable|].
  exact (X10_set_then_get Demo.store1 "c" 3%nat store1_reachable).
Defined.

(** X11 at the full store of the examples and its least recently used
    key. *)
Lemma X11_witness :
  reachable Demo.store1 ∧
  get "b" Demo.store1
    = Some (Demo.store_after [OpGet "b"] Demo.store1, Some 2%nat) ∧
  ∃ s2, get "b" (Demo.store_after [OpGet "b"] Demo.store1)
          = Some (s2, Some 2%nat) ∧
        entries s2 = entries (Demo.store_after [OpGet "b"] Demo.store1) ∧
        cache s2 = cache (Demo.store_after [OpGet "b"] Demo.store1).
Proof.
  assert (get "b" Demo.store1
          = Some (Demo.store_after [OpGet "b"] Demo.store1, Some 2%nat)) as H1
    by (vm_compute; reflexivity).
  split; [exact store1_reachable|]. split; [exact H1|].
  exact (X11_get_twice Demo.store1 "b" _ _ store1_reachable H1).
Defined.

(** X12 at the full store of the examples: the first [set] of a new key
    evicts, the second does not. *)
Lemma X12_witness :
  reachable Demo.store1 ∧
  set "c" 3%nat Demo.store1
    = Some (Demo.store_after [OpSet "c" 3%nat] Demo.store1) ∧
  set "c" 4%nat (Demo.store_after [OpSet "c" 3%nat] Demo.store1)
    = Some (Demo.store_after [OpSet "c" 3%nat; OpSet "c" 4%nat] Demo.store1) ∧
  ∃ s2', set "c" 4%nat Demo.store1 = Some s2' ∧
    entries (Demo.store_after [OpSet "c" 3%nat; OpSet "c" 4%nat] Demo.store1)
      = entries s2'.
Proof.
  assert (set "c" 3%nat Demo.store1
          = Some (Demo.store_after [OpSet "c" 3%nat] Demo.store1)) as H1
    by (vm_compute; reflexivity).
  assert (set "c" 4%nat (Demo.store_after [OpSet "c" 3%nat] Demo.store1)
          = Some (Demo.store_after [OpSet "c" 3%nat; OpSet "c" 4%nat]
                    Demo.store1)) as H2
    by (vm_compute; reflexivity).
  split; [exact store1_reachable|]. split; [exact H1|]. split; [exact H2|].
  exact (X12_set_twice Demo.store1 "c" 3%nat 4%nat _ _ store1_reachable H1 H2).
Defined.

End StoreExtrasExamples.

Section CacheExtrasExamples.
Import Cache CacheInv.

Local Abbreviation reachable := (CacheInv.reachable Demo.blank).
Local Abbreviation peek k c := (LRUCache.peek k (lruCache c)).





End CacheExtrasExamples.

Section RoutingExtrasExamples.
Import Js.

(** X18 at two nodes. *)
Lemma X18_witness :
  [units "n1"; units "n2"] ≠ [] ∧
  ∃ l1 n l2,
    [units "n1"; units "n2"] = l1 ++ n :: l2 ∧
    Routing.routeToNode [units "n1"; units "n2"] (units "key") = Some n ∧
    Forall (λ m, Routing.hashFn (Routing.template (units "key") (Some m))
                 < Routing.hashFn (Routing.template (units "key") (Some n)))
           l1 ∧
    Forall (λ m, Routing.hashFn (Routing.template (units "key") (Some m))
                 ≤ Routing.hashFn (Routing.template (units "key") (Some n)))
           l2.
Proof.
  assert ([units "n1"; units "n2"] ≠ []) as H1 by discriminate.
  split; [exact H1|].
  exact (proj2 (X18_legacy_route [units "n1"; units "n2"] (units "key")) H1).
Defined.

(** X19 at a command line with a port and a node list. *)
Lemma X19_witness :
  RoutingProxy.nodesArg [units "--port=5000"; units "--nodes=a,b"]
    = Some (units "--nodes=a,b") ∧
  startsWith (units "--nodes=") (units "--nodes=a,b") = true ∧
  ∃ cacheNodes,
    RoutingProxy.parseNodes (units "--nodes=a,b") = Some cacheNodes ∧
    cacheNodes ≠ [].
Proof.
  assert (RoutingProxy.nodesArg [units "--port=5000"; units "--nodes=a,b"]
          = Some (units "--nodes=a,b")) as H1 by (vm_compute; reflexivity).
  split; [exact H1|].
  exact (X19_nodes_argument_never_empty
           [units "--port=5000"; units "--nodes=a,b"] (units "--nodes=a,b") H1).
Defined.

(** X20 at two nodes, the second written with blanks around it. *)
Lemma X20_witness :
  [units "http://a:4000"; units " http://b:4001 "] ≠ [] ∧
  Forall (λ n, (61 ∉ n) ∧ (44 ∉ n))
         [units "http://a:4000"; units " http://b:4001 "] ∧
  RoutingProxy.parseNodes
    (units "--nodes=" ++
     join 44 [units "http://a:4000"; units " http://b:4001 "])
  = Some (trim <$> [units "http://a:4000"; units " http://b:4001 "]).
Proof.
  assert ([units "http://a:4000"; units " http://b:4001 "] ≠ []) as H1
    by discriminate.
  assert (Forall (λ n, (61 ∉ n) ∧ (44 ∉ n))
            [units "http://a:4000"; units " http://b:4001 "]) as H2
    by (apply (bool_decide_unpack _); vm_compute; exact I).
  split; [exact H1|]. split; [exact H2|].
  exact (X20_nodes_round_trip _ H1 H2).
Defined.

End RoutingExtrasExamples.

Section ProxyExtrasExamples.
Import ProxyServer.

(** X21 at the status 403. *)
Lemma X21_witness :
  (100 ≤ 403 < 1000)%nat ∧
  handler_catch (fetcher_catch (AxiosError (Some 403%nat) None "forbidden"))
  = (if decide (403%nat = 404%nat) then 404%nat else 500%nat) ∧
  handler_catch (fetcher_catch
    (AxiosError None (Some "ECONNREFUSED") "forbidden"))
  = 503%nat.
Proof.
  assert (100 ≤ 403 < 1000)%nat as H1 by lia.
  split; [exact H1|].
  exact (X21_origin_failure_status 403 None "forbidden" H1).
Defined.

End ProxyExtrasExamples.
